(** * Mortality table generator: the life-table engine of [mortalite.py]

    A shallow embedding of [MortalityTableGenerator] (column validation,
    [create_mortality_table], [_complete_calculations] and
    [_add_life_table_functions]) together with the properties stated for it.

    Numbers.  The program stores every cell as a NumPy [float64] and uses the
    not-a-number value as the "absent" marker.  The embedding keeps the three
    kinds of value the code distinguishes ([NaN], the two infinities, finite
    numbers) and the IEEE rules for combining them, but finite values are exact
    rationals: rounding, overflow and the sign of zero are not modelled.  A
    statement that would fail once a finite sum or product leaves the range of
    [float64] is stated for tables it cannot happen on: rows with
    non-negative entries and rates up to 1, or magnitudes that add up to at
    most [float_range]. *)

From Stdlib Require Import QArith Qcanon Lqa.
From Stdlib Require Qcabs.
From stdpp Require Import base numbers list strings sorting.

Local Open Scope Qc_scope.

(** ** Cells *)

Inductive float64 : Type :=
  | NaN
  | Inf (neg : bool)
  | Fin (q : Qc).

#[global] Instance float64_eq_dec : EqDecision float64.
Proof. solve_decision. Defined.

#[global] Instance float64_inhabited : Inhabited float64 := populate NaN.

(** A Python [int] stored into a float column.  The value is kept exactly:
    the rounding of integers beyond [2^53] and the [OverflowError] of integers
    beyond the range of [float64] are not modelled. *)
Definition of_int (z : Z) : float64 := Fin (Q2Qc (inject_Z z)).

Definition fzero : float64 := Fin 0.
Definition fone : float64 := Fin 1.
Definition ftwo : float64 := Fin 2.

Definition qneg (q : Qc) : bool := bool_decide (q < 0).

(** [x + y]; a finite sum is exact. *)
Definition fadd (x y : float64) : float64 :=
  match x, y with
  | NaN, _ | _, NaN => NaN
  | Inf s, Inf t => if bool_decide (s = t) then Inf s else NaN
  | Inf s, Fin _ => Inf s
  | Fin _, Inf t => Inf t
  | Fin a, Fin b => Fin (a + b)
  end.

(** [x - y] *)
Definition fsub (x y : float64) : float64 :=
  match x, y with
  | NaN, _ | _, NaN => NaN
  | Inf s, Inf t => if bool_decide (s = t) then NaN else Inf s
  | Inf s, Fin _ => Inf s
  | Fin _, Inf t => Inf (negb t)
  | Fin a, Fin b => Fin (a - b)
  end.

(** [x * y]; a finite product is exact. *)
Definition fmul (x y : float64) : float64 :=
  match x, y with
  | NaN, _ | _, NaN => NaN
  | Inf s, Inf t => Inf (xorb s t)
  | Inf s, Fin b => if bool_decide (b = 0) then NaN else Inf (xorb s (qneg b))
  | Fin a, Inf t => if bool_decide (a = 0) then NaN else Inf (xorb (qneg a) t)
  | Fin a, Fin b => Fin (a * b)
  end.

(** [x / y]; a finite non-zero value over zero is an infinity, [0 / 0] and
    [inf / inf] are not-a-number (NumPy only warns). *)
Definition fdiv (x y : float64) : float64 :=
  match x, y with
  | NaN, _ | _, NaN => NaN
  | Inf _, Inf _ => NaN
  | Inf s, Fin b => Inf (xorb s (qneg b))
  | Fin _, Inf _ => Fin 0
  | Fin a, Fin b =>
      if bool_decide (b = 0)
      then (if bool_decide (a = 0) then NaN else Inf (qneg a))
      else Fin (a / b)
  end.

(** [x < y]; every comparison with not-a-number is false. *)
Definition fltb (x y : float64) : bool :=
  match x, y with
  | NaN, _ | _, NaN => false
  | Inf s, Inf t => s && negb t
  | Inf s, Fin _ => s
  | Fin _, Inf t => negb t
  | Fin a, Fin b => bool_decide (a < b)
  end.

(** [x > y] *)
Definition fgtb (x y : float64) : bool := fltb y x.

(** [x <= y] as a proposition, for the statements. *)
Definition fle (x y : float64) : Prop :=
  match x, y with
  | NaN, _ | _, NaN => False
  | Inf s, Inf t => s = true ∨ t = false
  | Inf s, Fin _ => s = true
  | Fin _, Inf t => t = false
  | Fin a, Fin b => a ≤ b
  end.

#[global] Instance fle_dec : RelDecision fle.
Proof. intros [|s|a] [|t|b]; simpl; apply _. Defined.

(** The sum of a list of cells, right to left. *)
Definition fsum (l : list float64) : float64 := foldr fadd fzero l.

(** [pd.isna] *)
Definition isna (x : float64) : bool :=
  match x with NaN => true | _ => false end.

Definition notna (x : float64) : bool := negb (isna x).

Definition is_finite (x : float64) : bool :=
  match x with Fin _ => true | _ => false end.

Definition is_inf (x : float64) : bool :=
  match x with Inf _ => true | _ => false end.

(** Python's builtin [max(0, x)]: [x] when [x > 0], else the first argument. *)
Definition py_max0 (x : float64) : float64 :=
  if fgtb x fzero then x else fzero.

(** Python's builtin [min(1.0, x)]: [x] when [x < 1.0], else the first argument. *)
Definition py_min1 (x : float64) : float64 :=
  if fltb x fone then x else fone.

(** [df.replace([np.inf, -np.inf], np.nan)] followed by [df.fillna(0)], on one cell. *)
Definition replace_inf (x : float64) : float64 :=
  match x with Inf _ => NaN | _ => x end.

Definition fillna0 (x : float64) : float64 :=
  if isna x then fzero else x.

Definition clean (x : float64) : float64 := fillna0 (replace_inf x).

(** ** Tables

    After column validation the frame has the canonical columns [yaş], [lx],
    [qx] and [dx]; a table is the list of its rows in index order (the index is
    [0 .. n-1] after [reset_index(drop=True)], so [df.iloc[i]] and [df.loc[i]]
    name the same row). *)

Record Row : Type := mkRow {
  yas : float64;
  lx : float64;
  qx : float64;
  dx : float64
}.

#[global] Instance Row_eq_dec : EqDecision Row.
Proof. solve_decision. Defined.

Definition set_lx (v : float64) (r : Row) : Row := mkRow (yas r) v (qx r) (dx r).
Definition set_qx (v : float64) (r : Row) : Row := mkRow (yas r) (lx r) v (dx r).
Definition set_dx (v : float64) (r : Row) : Row := mkRow (yas r) (lx r) (qx r) v.

(** The frame returned by [_add_life_table_functions]: the canonical columns
    and the four derived ones. *)
Record LifeRow : Type := mkLifeRow {
  base : Row;
  px : float64;
  Lx : float64;
  Tx : float64;
  ex : float64
}.

#[global] Instance LifeRow_eq_dec : EqDecision LifeRow.
Proof. solve_decision. Defined.

#[global] Instance Row_inhabited : Inhabited Row :=
  populate (mkRow NaN NaN NaN NaN).

#[global] Instance LifeRow_inhabited : Inhabited LifeRow :=
  populate (mkLifeRow inhabitant NaN NaN NaN NaN).

(** ** Failures *)

Inductive Error : Type :=
  | NoData                                  (* [self.data is None] *)
  | MissingRequiredColumn (field : string)  (* [validate_columns] returned [False] *)
  | IndexError                              (* [df.iloc[0]] on a frame without rows *)
  | ValueError.                             (* a canonical label names two columns *)

Inductive Result (A : Type) : Type :=
  | Ok (a : A)
  | Err (e : Error).
Arguments Ok {A} a.
Arguments Err {A} e.

#[global] Instance Error_eq_dec : EqDecision Error.
Proof. solve_decision. Defined.

#[global] Instance Result_eq_dec `{EqDecision A} : EqDecision (Result A).
Proof. solve_decision. Defined.

(** ** Positional access *)

(** [df.iloc[i][c]]; in the loops of the program [i] is always in range. *)
Definition iloc (df : list Row) (i : nat) (c : Row → float64) : float64 :=
  from_option c NaN (df !! i).

(** [df.loc[i, c] = v] for an existing index label [i]. *)
Definition loc_set (df : list Row) (i : nat)
    (setc : float64 → Row → Row) (v : float64) : list Row :=
  alter (setc v) i df.

(** ** [_complete_calculations] *)

(** The three [if] statements of the first loop body, in source order. *)

(** [lx]: previous [lx] minus previous [dx]. *)
Definition fill_lx (df : list Row) (i : nat) : list Row :=
  if bool_decide (0 < i)%nat && isna (iloc df i lx) then
    if notna (iloc df (i - 1) lx) && notna (iloc df (i - 1) dx) then
      loc_set df i set_lx
        (py_max0 (fsub (iloc df (i - 1) lx) (iloc df (i - 1) dx)))
    else df
  else df.

(** [dx]: [lx * qx]. *)
Definition fill_dx (df : list Row) (i : nat) : list Row :=
  if isna (iloc df i dx) && notna (iloc df i qx) && notna (iloc df i lx) then
    loc_set df i set_dx (fmul (iloc df i lx) (iloc df i qx))
  else df.

(** [qx]: [dx / lx], only when absent. *)
Definition fill_qx (df : list Row) (i : nat) : list Row :=
  if isna (iloc df i qx) && notna (iloc df i dx) && notna (iloc df i lx) then
    if fgtb (iloc df i lx) fzero then
      loc_set df i set_qx (py_min1 (fdiv (iloc df i dx) (iloc df i lx)))
    else
      loc_set df i set_qx fzero
  else df.

(** The body of the first loop, [for i in range(len(df))]: each statement
    reads the frame as the previous one left it. *)
Definition pass1_body (df : list Row) (i : nat) : list Row :=
  fill_qx (fill_dx (fill_lx df i) i) i.

(** The body of the second loop, [for i in range(1, len(df))]. *)
Definition pass2_body (df : list Row) (i : nat) : list Row :=
  if isna (iloc df i lx) && notna (iloc df (i - 1) lx)
     && notna (iloc df (i - 1) qx) then
    loc_set df i set_lx
      (py_max0 (fmul (iloc df (i - 1) lx) (fsub fone (iloc df (i - 1) qx))))
  else df.

Definition _complete_calculations (df : list Row) (radix : Z)
    : Result (list Row) :=
  match df !! 0%nat with
  | None => Err IndexError
  | Some r0 =>
      let df0 := if isna (lx r0) then loc_set df 0 set_lx (of_int radix) else df in
      let df1 := foldl pass1_body df0 (seq 0 (length df0)) in
      let df2 := foldl pass2_body df1 (seq 1 (length df1 - 1)) in
      Ok df2
  end.

(** ** [_add_life_table_functions] *)

(** [np.cumsum]: a running sum that starts from the first element. *)
Fixpoint np_cumsum_from (acc : float64) (l : list float64) : list float64 :=
  match l with
  | [] => []
  | x :: l' => let acc' := fadd acc x in acc' :: np_cumsum_from acc' l'
  end.

Definition np_cumsum (l : list float64) : list float64 :=
  match l with
  | [] => []
  | x :: l' => x :: np_cumsum_from x l'
  end.

(** [Series.cumsum()] with its default [skipna=True]: absent entries count as
    [0] in the running sum and are absent in the result. *)
Definition skip_mask (x s : float64) : float64 := if isna x then NaN else s.

Definition pd_cumsum (l : list float64) : list float64 :=
  zip_with skip_mask l (np_cumsum (fillna0 <$> l)).

(** The element-wise expressions of the four assignments. *)

(** [1 - qx] *)
Definition cell_px (r : Row) : float64 := fsub fone (qx r).

(** [lx - (dx / 2)] *)
Definition cell_Lx (r : Row) : float64 := fsub (lx r) (fdiv (dx r) ftwo).

(** One entry of [np.where(lx > 0, Tx / lx, 0)]. *)
Definition cell_ex (r : Row) (t : float64) : float64 :=
  if fgtb (lx r) fzero then fdiv t (lx r) else fzero.

(** [1 - df['qx']] *)
Definition col_px (df : list Row) : list float64 := cell_px <$> df.

(** [df['lx'] - (df['dx'] / 2)] *)
Definition col_Lx (df : list Row) : list float64 := cell_Lx <$> df.

(** [df['Lx'][::-1].cumsum()[::-1]] *)
Definition col_Tx (df : list Row) : list float64 :=
  reverse (pd_cumsum (reverse (col_Lx df))).

(** [np.where(df['lx'] > 0, df['Tx'] / df['lx'], 0)] *)
Definition col_ex (df : list Row) : list float64 :=
  zip_with cell_ex df (col_Tx df).

Definition clean_row (r : Row) : Row :=
  mkRow (clean (yas r)) (clean (lx r)) (clean (qx r)) (clean (dx r)).

(** The cleanup [replace([inf, -inf], nan)] then [fillna(0)], over every column. *)
Definition clean_life_row (r : LifeRow) : LifeRow :=
  mkLifeRow (clean_row (base r)) (clean (px r)) (clean (Lx r))
            (clean (Tx r)) (clean (ex r)).

(** The frame with its four new columns, before the cleanup. *)
Definition with_columns (df : list Row) : list LifeRow :=
  zip_with (λ '(r, p, l) '(t, e), mkLifeRow r p l t e)
           (zip (zip df (col_px df)) (col_Lx df))
           (zip (col_Tx df) (col_ex df)).

(** Every cell is numeric here, so no exception reaches the [except] branch
    and the cleaned frame is what is returned. *)
Definition _add_life_table_functions (df : list Row) : list LifeRow :=
  clean_life_row <$> with_columns df.

(** The calculator applied to a frame that already has the derived columns,
    such as its own output: the four assignments overwrite [px], [Lx], [Tx] and
    [ex] from the canonical columns of that frame, and the cleanup runs again. *)
Definition recalculate (out : list LifeRow) : list LifeRow :=
  _add_life_table_functions (base <$> out).

(** Lines 105-108 of [create_mortality_table]: complete, then derive. *)
Definition life_table (df : list Row) (radix : Z) : Result (list LifeRow) :=
  match _complete_calculations df radix with
  | Ok df' => Ok (_add_life_table_functions df')
  | Err e => Err e
  end.

(** ** The generator object: [self.data] and column validation *)

(** [self.data]: the columns of the frame in order, each a label and its
    values.  The labels are those [read_excel_data] stored, lower-cased and
    stripped; [validate_columns] compares them as they are.  A [DataFrame]'s
    columns all have the length of its index; a model column that is shorter
    reads as absent beyond its end. *)
Definition Frame : Type := list (string * list float64).

Record MortalityTableGenerator : Type := mkGenerator {
  data : option Frame;
  mortality_table : option (list LifeRow)
}.

(** [self.data.columns] *)
Definition columns (df : Frame) : list string := fst <$> df.

(** The alternative names of each canonical column, in the order tried. *)
Definition age_synonyms : list string := ["yas"; "age"; "yaş"; "x"].
Definition lx_synonyms : list string := ["lx"; "l(x)"; "survivors"].
Definition qx_synonyms : list string := ["qx"; "q(x)"; "mortality_rate"].
Definition dx_synonyms : list string := ["dx"; "d(x)"; "deaths"].

Definition column_mapping : list (string * list string) :=
  [ ("yaş", age_synonyms);
    ("lx", lx_synonyms);
    ("qx", qx_synonyms);
    ("dx", dx_synonyms) ].

(** The inner loop [for alt in alternatives]: the first alternative that is a
    column label. *)
Fixpoint find_alternative (alternatives cols : list string) : option string :=
  match alternatives with
  | [] => None
  | alt :: rest =>
      if bool_decide (alt ∈ cols) then Some alt else find_alternative rest cols
  end.

(** The outer loop [for standard_col, alternatives in column_mapping.items()],
    with [mapped_columns] as accumulator.  [Err (MissingRequiredColumn c)] is
    the early [return False] taken after the message for column [c]. *)
Fixpoint map_columns (mapping : list (string * list string)) (cols : list string)
    (mapped_columns : list (string * string)) : Result (list (string * string)) :=
  match mapping with
  | [] => Ok mapped_columns
  | (standard_col, alternatives) :: rest =>
      match find_alternative alternatives cols with
      | Some alt => map_columns rest cols (mapped_columns ++ [(standard_col, alt)])
      | None =>
          if bool_decide (standard_col = "yaş") then Err (MissingRequiredColumn "yaş")
          else if bool_decide (standard_col = "qx") then Err (MissingRequiredColumn "qx")
          else map_columns rest cols mapped_columns
      end
  end.

(** [rename_dict = {v: k for k, v in mapped_columns.items()}], read at one
    label; a later item overrides an earlier one with the same key. *)
Fixpoint rename_dict_get (mapped_columns : list (string * string)) (c : string)
    : option string :=
  match mapped_columns with
  | [] => None
  | (k, v) :: rest =>
      match rename_dict_get rest c with
      | Some k' => Some k'
      | None => if bool_decide (v = c) then Some k else None
      end
  end.

(** A label that is not a key of [rename_dict] is left as it is. *)
Definition rename_label (mapped_columns : list (string * string)) (c : string) : string :=
  default c (rename_dict_get mapped_columns c).

(** [self.data.rename(columns=rename_dict, inplace=True)] *)
Definition rename_columns (mapped_columns : list (string * string)) (df : Frame) : Frame :=
  (λ '(c, vals), (rename_label mapped_columns c, vals)) <$> df.

(** [validate_columns]: the returned flag and the new content of [self.data]. *)
Definition validate_columns (df : Frame) : Result unit * Frame :=
  match map_columns column_mapping (columns df) [] with
  | Err e => (Err e, df)
  | Ok mapped_columns => (Ok (), rename_columns mapped_columns df)
  end.

(** ** [create_mortality_table] *)

(** [df[c]] when the label names one column or more (the first is read). *)
Definition get_column (df : Frame) (c : string) : option (list float64) :=
  snd <$> head (filter (λ p, p.1 = c) df).

Definition count_label (df : Frame) (c : string) : nat :=
  length (filter (λ p, p.1 = c) df).

(** The rows of the frame over its canonical columns.  A missing [lx] or [dx]
    column reads as absent in every row: lines 99-102 add it as [np.nan]. *)
Definition frame_rows (df : Frame) : list Row :=
  let col c := default [] (get_column df c) in
  imap (λ i a, mkRow a (default NaN (col "lx" !! i))
                       (default NaN (col "qx" !! i))
                       (default NaN (col "dx" !! i)))
       (col "yaş").

(** The order of [sort_values('yaş')]: ascending, absent ages last.  The
    order among rows of equal age is the sorting routine's own. *)
Definition yas_leb (r1 r2 : Row) : bool :=
  isna (yas r2) || (notna (yas r1) && negb (fltb (yas r2) (yas r1))).

Definition yas_le (r1 r2 : Row) : Prop := Is_true (yas_leb r1 r2).

#[global] Instance yas_le_dec : RelDecision yas_le.
Proof. intros r1 r2. unfold yas_le. apply _. Defined.

(** [sort_values('yaş')] orders the rows whose age is present with NumPy's
    default [argsort] and puts the rows whose age is blank after them, in their
    input order.  The order that routine gives to rows of equal age is not
    specified; [sort_values] keeps them in input order, as its insertion sort
    does on a short table, and the properties of the pipeline below use only
    that the result is a permutation of the rows that is sorted by age. *)
Fixpoint insert_row (r : Row) (l : list Row) : list Row :=
  match l with
  | [] => [r]
  | r' :: l' => if yas_leb r r' then r :: l else r' :: insert_row r l'
  end.

Definition sort_values (df : list Row) : list Row := foldr insert_row [] df.

(** Lines 92-102: copy, sort by age, reset the index, add the missing columns.
    [sort_values] raises when the label [yaş] names more than one column. *)
Definition sorted_frame (df : Frame) : Result (list Row) :=
  if bool_decide (1 < count_label df "yaş")%nat then Err ValueError
  else Ok (sort_values (frame_rows df)).

(** A label [lx], [qx] or [dx] that names two columns makes [pd.isna] return a
    series, whose truth value raises. *)
Definition ambiguous (df : Frame) : bool :=
  bool_decide (1 < count_label df "lx")%nat
  || bool_decide (1 < count_label df "qx")%nat
  || bool_decide (1 < count_label df "dx")%nat.

Definition create_mortality_table (self : MortalityTableGenerator) (radix : Z)
    : Result (list LifeRow) * MortalityTableGenerator :=
  match data self with
  | None => (Err NoData, self)
  | Some d =>
      match validate_columns d with
      | (Err e, d') => (Err e, mkGenerator (Some d') (mortality_table self))
      | (Ok _, d') =>
          let self' := mkGenerator (Some d') (mortality_table self) in
          match sorted_frame d' with
          | Err e => (Err e, self')
          | Ok df =>
              if bool_decide (df ≠ []) && ambiguous d' then (Err ValueError, self')
              else
                match life_table df radix with
                | Err e => (Err e, self')
                | Ok t => (Ok t, mkGenerator (Some d') (Some t))
                end
          end
      end
  end.

(** ** The completion algorithm in the words of the specification

    Section 4.2, steps 2 to 5: the radix rule, one forward pass applying a, b
    and c to each row in this order with the previous row as already updated,
    and a second forward pass over the rows after the first. *)

(** Step 2: if the first row's [lx] is absent, set it to [radix]. *)
Definition spec_radix (radix : Z) (rows : list Row) : list Row :=
  match rows with
  | [] => []
  | r :: rest => (if isna (lx r) then set_lx (of_int radix) r else r) :: rest
  end.

(** Step 3a; [prev] is the row at index [i-1], absent for [i = 0]. *)
Definition spec_step_a (prev : option Row) (r : Row) : Row :=
  match prev with
  | Some p =>
      if isna (lx r) && (notna (lx p) && notna (dx p))
      then set_lx (py_max0 (fsub (lx p) (dx p))) r
      else r
  | None => r
  end.

(** Step 3b. *)
Definition spec_step_b (r : Row) : Row :=
  if isna (dx r) && (notna (qx r) && notna (lx r))
  then set_dx (fmul (lx r) (qx r)) r
  else r.

(** Step 3c. *)
Definition spec_step_c (r : Row) : Row :=
  if isna (qx r) && (notna (dx r) && notna (lx r))
  then set_qx (if fgtb (lx r) fzero then py_min1 (fdiv (dx r) (lx r)) else fzero) r
  else r.

Definition spec_row (prev : option Row) (r : Row) : Row :=
  spec_step_c (spec_step_b (spec_step_a prev r)).

Fixpoint spec_pass1 (prev : option Row) (rows : list Row) : list Row :=
  match rows with
  | [] => []
  | r :: rest => let r' := spec_row prev r in r' :: spec_pass1 (Some r') rest
  end.

(** Step 4, on one row. *)
Definition spec_fill_lx (prev : option Row) (r : Row) : Row :=
  match prev with
  | Some p =>
      if isna (lx r) && (notna (lx p) && notna (qx p))
      then set_lx (py_max0 (fmul (lx p) (fsub fone (qx p)))) r
      else r
  | None => r
  end.

Fixpoint spec_pass2 (prev : option Row) (rows : list Row) : list Row :=
  match rows with
  | [] => []
  | r :: rest => let r' := spec_fill_lx prev r in r' :: spec_pass2 (Some r') rest
  end.

Definition spec_complete (rows : list Row) (radix : Z) : list Row :=
  spec_pass2 None (spec_pass1 None (spec_radix radix rows)).

(** ** Sample tables *)

Definition ratio (n : Z) (d : positive) : float64 := Fin (Q2Qc (n # d)).

(** Scenario A: rows [{age:0, qx:0.01}], [{age:1, qx:0.02}]. *)
Definition scenario_A : list Row :=
  [ mkRow (of_int 0) NaN (ratio 1 100) NaN;
    mkRow (of_int 1) NaN (ratio 2 100) NaN ].

Definition scenario_A_completed : list Row :=
  [ mkRow (of_int 0) (of_int 100000) (ratio 1 100) (of_int 1000);
    mkRow (of_int 1) (of_int 99000) (ratio 2 100) (of_int 1980) ].

(** A blank [qx] cell in the first row; the second row supplies [lx]. *)
Definition blank_qx_table : list Row :=
  [ mkRow (of_int 0) NaN NaN NaN;
    mkRow (of_int 1) (of_int 50) (ratio 1 2) NaN ].

Definition blank_qx_table_out : list LifeRow :=
  [ mkLifeRow (mkRow (of_int 0) (of_int 100000) fzero fzero)
      fzero fzero fzero fzero;
    mkLifeRow (mkRow (of_int 1) (of_int 50) (ratio 1 2) (of_int 25))
      (ratio 1 2) (ratio 75 2) (ratio 75 2) (ratio 3 4) ].

(** One row that supplies [lx] and leaves [qx] blank; completion changes
    nothing in it. *)
Definition blank_qx_row : list Row :=
  [ mkRow (of_int 0) (of_int 100) NaN NaN ].



(** A frame that supplies [lx = 100, 200] for the ages [0, 1]. *)
Definition rising_lx_frame : Frame :=
  [ ("age", [of_int 0; of_int 1]);
    ("lx", [of_int 100; of_int 200]);
    ("qx", [ratio 1 2; ratio 1 2]) ].

Definition rising_lx_out : list LifeRow :=
  [ mkLifeRow (mkRow (of_int 0) (of_int 100) (ratio 1 2) (of_int 50))
      (ratio 1 2) (of_int 75) (of_int 225) (ratio 9 4);
    mkLifeRow (mkRow (of_int 1) (of_int 200) (ratio 1 2) (of_int 100))
      (ratio 1 2) (of_int 150) (of_int 150) (ratio 3 4) ].

(** A frame that supplies [qx = 2] at age 0 and leaves [qx] blank at age 1. *)
Definition qx_two_frame : Frame :=
  [ ("age", [of_int 0; of_int 1]);
    ("qx", [of_int 2; NaN]) ].

Definition qx_two_out : list LifeRow :=
  [ mkLifeRow (mkRow (of_int 0) (of_int 100000) (of_int 2) (of_int 200000))
      (of_int (-1)) fzero fzero fzero;
    mkLifeRow (mkRow (of_int 1) fzero fzero fzero)
      fzero fzero fzero fzero ].

(** A frame whose only row has a blank age. *)
Definition blank_age_frame : Frame :=
  [ ("age", [NaN]); ("qx", [ratio 1 2]) ].

Definition blank_age_out : list LifeRow :=
  [ mkLifeRow (mkRow fzero (of_int 100000) (ratio 1 2) (of_int 50000))
      (ratio 1 2) (of_int 75000) (of_int 75000) (ratio 3 4) ].

(** Scenario C: a frame with an age column and no [qx] column. *)
Definition scenario_C : Frame :=
  [ ("age", [of_int 0; of_int 1]);
    ("lx", [of_int 100; of_int 50]) ].

(** ** Vocabulary of the statements *)

(** A cell that was present is kept as it was. *)
Definition kept (c : Row → float64) (r r' : Row) : Prop :=
  isna (c r) = false → c r' = c r.

(** [r'] holds every value that [r] supplied, at the same age. *)
Definition keeps (r r' : Row) : Prop :=
  yas r' = yas r ∧ kept lx r r' ∧ kept qx r r' ∧ kept dx r r'.

(** [Tx[last] = Lx[last]] and [Tx[i] = Lx[i] + Tx[i+1]]. *)
Definition reverse_cumsum (out : list LifeRow) : Prop :=
  ∀ i o, out !! i = Some o →
    match out !! S i with
    | None => Tx o = Lx o
    | Some o' => Tx o = fadd (Lx o) (Tx o')
    end.

(** [Tx] at a row is the sum of [Lx] over that row and the later ones. *)
Definition suffix_sum (out : list LifeRow) : Prop :=
  ∀ i o, out !! i = Some o → Tx o = fsum (Lx <$> drop i out).

(** [lx] does not grow from a row to the next. *)
Definition lx_non_increasing (out : list LifeRow) : Prop :=
  ∀ i o o', out !! i = Some o → out !! S i = Some o' →
    fle (lx (base o')) (lx (base o)).

(** [0 <= qx <= 1] and [0 <= px <= 1]. *)
Definition in_bounds (o : LifeRow) : Prop :=
  fle fzero (qx (base o)) ∧ fle (qx (base o)) fone
  ∧ fle fzero (px o) ∧ fle (px o) fone.

(** [px + qx = 1]. *)
Definition complementary (o : LifeRow) : Prop :=
  fadd (px o) (qx (base o)) = fone.


(** Absent, or a finite number that is not negative. *)
Definition absent_or_nonneg (x : float64) : bool :=
  match x with
  | NaN => true
  | Inf _ => false
  | Fin q => bool_decide (0 ≤ q)
  end.

(** Absent, or a number between 0 and 1. *)
Definition absent_or_unit (x : float64) : bool :=
  match x with
  | NaN => true
  | Inf _ => false
  | Fin q => bool_decide (0 ≤ q) && bool_decide (q ≤ 1)
  end.

(** No column label of the frame is one of the synonyms. *)
Definition unmatched (synonyms : list string) (df : Frame) : Prop :=
  ∀ s, s ∈ synonyms → s ∉ columns df.

(** The supplied cells of a row are absent or finite and not negative. *)
Definition valid_row (r : Row) : Prop :=
  absent_or_nonneg (lx r) = true
  ∧ absent_or_nonneg (qx r) = true
  ∧ absent_or_nonneg (dx r) = true.

(** The supplied [qx] is absent or between 0 and 1, and the supplied [dx] is
    not negative. *)
Definition unit_row (r : Row) : Prop :=
  absent_or_unit (qx r) = true ∧ fltb (dx r) fzero = false.

(** ** Further vocabulary: the state between the two loops *)

(** [_complete_calculations] up to the end of its first loop: the radix rule
    and [for i in range(len(df))]. *)
Definition first_pass (df : list Row) (radix : Z) : list Row :=
  match df !! 0%nat with
  | None => df
  | Some r0 =>
      let df0 := if isna (lx r0) then loc_set df 0 set_lx (of_int radix) else df in
      foldl pass1_body df0 (seq 0 (length df0))
  end.

(** No cell of the row is infinite. *)
Definition no_inf_row (r : Row) : Prop :=
  is_inf (lx r) = false ∧ is_inf (qx r) = false ∧ is_inf (dx r) = false.

(** Every one of [lx], [qx], [dx] is a finite number. *)
Definition full_row (r : Row) : Prop :=
  is_finite (lx r) = true ∧ is_finite (qx r) = true ∧ is_finite (dx r) = true.

(** A row the first loop has nothing more to do with: no infinite cell, and
    when [lx] is present, [qx] and [dx] are both present or both absent. *)
Definition settled_row (r : Row) : Prop :=
  no_inf_row r
  ∧ (isna (lx r) = false → isna (qx r) = false → isna (dx r) = false)
  ∧ (isna (lx r) = false → isna (dx r) = false → isna (qx r) = false).

(** [lx] and [dx] are finite and [0 <= dx <= lx]: the deaths of a row do not
    exceed its survivors. *)
Definition deaths_within (r : Row) : bool :=
  match lx r, dx r with
  | Fin l, Fin d => bool_decide (0 ≤ d) && bool_decide (d ≤ l)
  | _, _ => false
  end.

(** The row supplies a death probability between 0 and 1 and no deaths; its
    [lx] is absent or a finite number that is not negative. *)
Definition rate_row (r : Row) : bool :=
  absent_or_nonneg (lx r) && isna (dx r)
  && match qx r with
     | Fin q => bool_decide (0 ≤ q) && bool_decide (q ≤ 1)
     | _ => false
     end.

(** A row as a life table has it: [lx] and [dx] are absent or finite and not
    negative, [qx] is absent or between 0 and 1.  On such rows every product,
    quotient and difference that the completion stores lies between 0 and a
    value it already holds, so none of them can leave the range of
    [float64]. *)
Definition plausible_row (r : Row) : bool :=
  absent_or_nonneg (lx r) && absent_or_unit (qx r) && absent_or_nonneg (dx r).

(** ** The range of [float64] *)

(** The largest finite [float64], [(2^53 - 1) * 2^971]; a result beyond it is
    an infinity. *)
Definition float_max : Qc := Q2Qc (inject_Z ((2 ^ 53 - 1) * 2 ^ 971)).

(** [2^1023], about half of [float_max]: while the magnitudes of a table add
    up to at most this, the rounding of each partial sum cannot carry a sum of
    its cells beyond [float_max]. *)
Definition float_range : Qc := Q2Qc (inject_Z (2 ^ 1023)).

(** The absolute value of a finite cell; an absent cell counts as [0]. *)
Definition magnitude (x : float64) : Qc :=
  match x with
  | Fin q => Qcabs.Qcabs q
  | _ => 0
  end.

(** The sum of [|lx| + |dx|] over the rows of the table. *)
Definition total_magnitude (df : list Row) : Qc :=
  foldr (λ r s, magnitude (lx r) + magnitude (dx r) + s) 0 df.

(** Absent, or a finite number between 0 and [M]. *)
Definition absent_or_within (M : Qc) (x : float64) : bool :=
  match x with
  | NaN => true
  | Inf _ => false
  | Fin q => bool_decide (0 ≤ q) && bool_decide (q ≤ M)
  end.

(** A plausible row whose [lx] and [dx] are at most [M]. *)
Definition bounded_row (M : Qc) (r : Row) : bool :=
  absent_or_within M (lx r) && absent_or_unit (qx r)
  && absent_or_within M (dx r).

(** * Properties *)

(** ** Positional access on a list split around the current row *)

Lemma iloc_middle pre r rest c : iloc (pre ++ r :: rest) (length pre) c = c r.
Proof. unfold iloc. by rewrite list_lookup_middle. Qed.

Lemma loc_set_middle pre r rest setc v :
  loc_set (pre ++ r :: rest) (length pre) setc v = pre ++ setc v r :: rest.
Proof.
  unfold loc_set.
  replace (length pre) with (length pre + 0)%nat by lia.
  by rewrite alter_app_r.
Qed.

Lemma iloc_prev pre p rest c :
  iloc (pre ++ p :: rest) (S (length pre) - 1) c = c p.
Proof.
  replace (S (length pre) - 1)%nat with (length pre) by lia.
  apply iloc_middle.
Qed.

Lemma snoc_split pre (p r : Row) rest :
  pre ++ p :: r :: rest = (pre ++ [p]) ++ r :: rest.
Proof. by rewrite <-(assoc_L (++)). Qed.

Lemma iloc_current pre p r rest c :
  iloc (pre ++ p :: r :: rest) (S (length pre)) c = c r.
Proof.
  rewrite snoc_split.
  replace (S (length pre)) with (length (pre ++ [p]))
    by (rewrite length_app; simpl; lia).
  apply iloc_middle.
Qed.

Lemma loc_set_current pre p r rest setc v :
  loc_set (pre ++ p :: r :: rest) (S (length pre)) setc v
  = pre ++ p :: setc v r :: rest.
Proof.
  rewrite !snoc_split.
  replace (S (length pre)) with (length (pre ++ [p]))
    by (rewrite length_app; simpl; lia).
  apply loc_set_middle.
Qed.

(** ** The loop bodies against the row-by-row steps *)

Lemma fill_lx_first r rest : fill_lx (r :: rest) 0 = r :: rest.
Proof. done. Qed.

Lemma fill_lx_next pre p r rest :
  fill_lx (pre ++ p :: r :: rest) (S (length pre))
  = pre ++ p :: spec_step_a (Some p) r :: rest.
Proof.
  unfold fill_lx, spec_step_a.
  rewrite !iloc_prev, !iloc_current, loc_set_current.
  rewrite bool_decide_eq_true_2 by lia. simpl.
  by destruct (isna (lx r)), (notna (lx p)), (notna (dx p)).
Qed.

Lemma fill_dx_at pre r rest :
  fill_dx (pre ++ r :: rest) (length pre) = pre ++ spec_step_b r :: rest.
Proof.
  unfold fill_dx, spec_step_b.
  rewrite !iloc_middle, loc_set_middle.
  by destruct (isna (dx r)), (notna (qx r)), (notna (lx r)).
Qed.

Lemma fill_qx_at pre r rest :
  fill_qx (pre ++ r :: rest) (length pre) = pre ++ spec_step_c r :: rest.
Proof.
  unfold fill_qx, spec_step_c.
  rewrite !iloc_middle, !loc_set_middle.
  by destruct (fgtb (lx r) fzero), (isna (qx r)), (notna (dx r)), (notna (lx r)).
Qed.

Lemma pass1_body_first r rest :
  pass1_body (r :: rest) 0 = spec_row None r :: rest.
Proof.
  unfold pass1_body. rewrite fill_lx_first.
  pose proof (fill_dx_at [] r rest) as Hb. simpl in Hb. rewrite Hb.
  apply (fill_qx_at [] (spec_step_b r) rest).
Qed.

Lemma pass1_body_next pre p r rest :
  pass1_body (pre ++ p :: r :: rest) (S (length pre))
  = pre ++ p :: spec_row (Some p) r :: rest.
Proof.
  unfold pass1_body. rewrite fill_lx_next, !snoc_split.
  replace (S (length pre)) with (length (pre ++ [p]))
    by (rewrite length_app; simpl; lia).
  by rewrite fill_dx_at, fill_qx_at.
Qed.

Lemma pass2_body_next pre p r rest :
  pass2_body (pre ++ p :: r :: rest) (S (length pre))
  = pre ++ p :: spec_fill_lx (Some p) r :: rest.
Proof.
  unfold pass2_body, spec_fill_lx.
  rewrite !iloc_prev, !iloc_current, loc_set_current.
  by destruct (isna (lx r)), (notna (lx p)), (notna (qx p)).
Qed.

(** The rest of a loop, once the rows before [p] and [p] itself are done. *)
Lemma pass1_loop rest : ∀ pre p,
  foldl pass1_body (pre ++ p :: rest) (seq (S (length pre)) (length rest))
  = pre ++ p :: spec_pass1 (Some p) rest.
Proof.
  induction rest as [|r rest IH]; intros pre p; [done|].
  simpl. rewrite pass1_body_next, snoc_split.
  replace (S (S (length pre))) with (S (length (pre ++ [p])))
    by (rewrite length_app; simpl; lia).
  rewrite IH. by rewrite <-(assoc_L (++)).
Qed.

Lemma pass2_loop rest : ∀ pre p,
  foldl pass2_body (pre ++ p :: rest) (seq (S (length pre)) (length rest))
  = pre ++ p :: spec_pass2 (Some p) rest.
Proof.
  induction rest as [|r rest IH]; intros pre p; [done|].
  simpl. rewrite pass2_body_next, snoc_split.
  replace (S (S (length pre))) with (S (length (pre ++ [p])))
    by (rewrite length_app; simpl; lia).
  rewrite IH. by rewrite <-(assoc_L (++)).
Qed.

Lemma spec_pass1_length rows : ∀ prev, length (spec_pass1 prev rows) = length rows.
Proof. induction rows as [|r rows IH]; intros prev; simpl; [done|]. by rewrite IH. Qed.

Lemma spec_pass2_length rows : ∀ prev, length (spec_pass2 prev rows) = length rows.
Proof. induction rows as [|r rows IH]; intros prev; simpl; [done|]. by rewrite IH. Qed.

Lemma both_loops r0 rest :
  foldl pass2_body (foldl pass1_body (r0 :: rest) (seq 0 (length (r0 :: rest))))
        (seq 1 (length (foldl pass1_body (r0 :: rest)
                          (seq 0 (length (r0 :: rest)))) - 1))
  = spec_pass2 None (spec_pass1 None (r0 :: rest)).
Proof.
  simpl. rewrite pass1_body_first.
  pose proof (pass1_loop rest [] (spec_row None r0)) as H1. simpl in H1.
  rewrite H1. simpl. rewrite Nat.sub_0_r.
  pose proof (pass2_loop (spec_pass1 (Some (spec_row None r0)) rest) []
                (spec_row None r0)) as H2.
  simpl in H2. by rewrite H2.
Qed.

(** The program computes the two-pass recursion on every frame with a row. *)
Lemma complete_calculations_spec r rest radix :
  _complete_calculations (r :: rest) radix = Ok (spec_complete (r :: rest) radix).
Proof.
  unfold _complete_calculations, spec_complete, spec_radix.
  change ((r :: rest) !! 0%nat) with (Some r). cbv beta iota zeta.
  destruct (isna (lx r)).
  - change (loc_set (r :: rest) 0 set_lx (of_int radix))
      with (set_lx (of_int radix) r :: rest).
    by rewrite both_loops.
  - by rewrite both_loops.
Qed.

Lemma complete_calculations_empty radix :
  _complete_calculations [] radix = Err IndexError.
Proof. done. Qed.

(** ** Arithmetic of cells *)

Lemma fadd_comm x y : fadd x y = fadd y x.
Proof.
  destruct x as [|s|a], y as [|t|b]; simpl; try done.
  - by destruct s, t.
  - by rewrite Qcplus_comm.
Qed.

Lemma fadd_assoc x y z : fadd x (fadd y z) = fadd (fadd x y) z.
Proof.
  destruct x as [|s|a], y as [|t|b], z as [|u|c]; simpl; try done;
    try (by destruct s, t, u); try (by destruct s, t); try (by destruct t, u);
    try (by destruct s, u).
  by rewrite Qcplus_assoc.
Qed.

Lemma fadd_zero_r x : fadd x fzero = x.
Proof. destruct x as [|s|a]; simpl; try done. by rewrite Qcplus_0_r. Qed.

Lemma fsum_nil : fsum [] = fzero.
Proof. done. Qed.

Lemma fsum_cons x l : fsum (x :: l) = fadd x (fsum l).
Proof. done. Qed.

Lemma fsum_app l1 l2 : fsum (l1 ++ l2) = fadd (fsum l1) (fsum l2).
Proof.
  induction l1 as [|x l1 IH].
  - by rewrite app_nil_l, fsum_nil, fadd_comm, fadd_zero_r.
  - by rewrite <-app_comm_cons, !fsum_cons, IH, fadd_assoc.
Qed.

Lemma fsum_reverse l : fsum (reverse l) = fsum l.
Proof.
  induction l as [|x l IH]; [done|].
  by rewrite reverse_cons, fsum_app, IH, !fsum_cons, fsum_nil, fadd_zero_r, fadd_comm.
Qed.

(** ** Running sums *)

Lemma np_cumsum_from_lookup l : ∀ acc k,
  (k < length l)%nat →
  np_cumsum_from acc l !! k = Some (fadd acc (fsum (take (S k) l))).
Proof.
  induction l as [|x l IH]; intros acc k Hk; [simpl in Hk; lia|].
  destruct k as [|k].
  - change (Some (fadd acc x) = Some (fadd acc (fsum [x]))).
    by rewrite fsum_cons, fsum_nil, fadd_zero_r.
  - change (np_cumsum_from (fadd acc x) l !! k
            = Some (fadd acc (fsum (x :: take (S k) l)))).
    rewrite IH by (simpl in Hk; lia). by rewrite fsum_cons, fadd_assoc.
Qed.

Lemma np_cumsum_lookup l k :
  (k < length l)%nat → np_cumsum l !! k = Some (fsum (take (S k) l)).
Proof.
  destruct l as [|x l]; [simpl; lia|]. intros Hk.
  destruct k as [|k].
  - change (Some x = Some (fsum [x])).
    by rewrite fsum_cons, fsum_nil, fadd_zero_r.
  - change (np_cumsum_from x l !! k = Some (fsum (x :: take (S k) l))).
    rewrite np_cumsum_from_lookup by (simpl in Hk; lia). by rewrite fsum_cons.
Qed.

Lemma np_cumsum_from_length l : ∀ acc, length (np_cumsum_from acc l) = length l.
Proof. induction l as [|x l IH]; intros acc; simpl; [done|]. by rewrite IH. Qed.

Lemma np_cumsum_length l : length (np_cumsum l) = length l.
Proof. destruct l; simpl; [done|]. by rewrite np_cumsum_from_length. Qed.

Lemma pd_cumsum_length l : length (pd_cumsum l) = length l.
Proof.
  unfold pd_cumsum.
  rewrite length_zip_with, np_cumsum_length, length_fmap. lia.
Qed.

Lemma pd_cumsum_lookup l k x :
  l !! k = Some x →
  pd_cumsum l !! k = Some (skip_mask x (fsum (fillna0 <$> take (S k) l))).
Proof.
  intros Hx. unfold pd_cumsum.
  rewrite lookup_zip_with, Hx. simpl.
  rewrite np_cumsum_lookup, fmap_take; [done|].
  rewrite length_fmap. by eapply lookup_lt_Some.
Qed.

(** The reversed running sum of the reversed column, entry by entry: absent
    where the entry is absent, otherwise the sum of the present entries from
    there to the end. *)
Lemma reverse_cumsum_lookup l i x :
  l !! i = Some x →
  reverse (pd_cumsum (reverse l)) !! i
  = Some (skip_mask x (fsum (fillna0 <$> drop i l))).
Proof.
  intros Hx. pose proof (lookup_lt_Some _ _ _ Hx) as Hi.
  rewrite reverse_lookup by (by rewrite pd_cumsum_length, length_reverse).
  rewrite pd_cumsum_length, length_reverse.
  rewrite (pd_cumsum_lookup _ _ x).
  - replace (S (length l - S i)) with (length l - i)%nat by lia.
    rewrite take_reverse.
    replace (length l - (length l - i))%nat with i by lia.
    by rewrite fmap_reverse, fsum_reverse.
  - rewrite reverse_lookup by lia.
    replace (length l - S (length l - S i))%nat with i by lia. done.
Qed.

Lemma col_Tx_length df : length (col_Tx df) = length df.
Proof.
  unfold col_Tx, col_Lx.
  by rewrite length_reverse, pd_cumsum_length, length_reverse, length_fmap.
Qed.

Lemma col_Tx_lookup df i r :
  df !! i = Some r →
  col_Tx df !! i
  = Some (skip_mask (cell_Lx r) (fsum (fillna0 <$> drop i (col_Lx df)))).
Proof.
  intros Hr. unfold col_Tx. apply reverse_cumsum_lookup.
  unfold col_Lx. by rewrite list_lookup_fmap, Hr.
Qed.

(** ** The frame with its derived columns, row by row *)


Lemma with_columns_lookup df i r :
  df !! i = Some r →
  with_columns df !! i
  = Some (let t := skip_mask (cell_Lx r) (fsum (fillna0 <$> drop i (col_Lx df))) in
          mkLifeRow r (cell_px r) (cell_Lx r) t (cell_ex r t)).
Proof.
  intros Hr. unfold with_columns.
  rewrite lookup_zip_with, !lookup_zip_with.
  unfold col_ex, col_px, col_Lx at 1.
  rewrite lookup_zip_with, !list_lookup_fmap, Hr.
  by rewrite (col_Tx_lookup _ _ r).
Qed.

Lemma with_columns_length df : length (with_columns df) = length df.
Proof.
  unfold with_columns, col_ex, col_px, col_Lx.
  rewrite !length_zip_with, !length_fmap, col_Tx_length. lia.
Qed.

Lemma add_life_table_functions_length df :
  length (_add_life_table_functions df) = length df.
Proof. unfold _add_life_table_functions. by rewrite length_fmap, with_columns_length. Qed.

Lemma add_life_table_functions_lookup df i r :
  df !! i = Some r →
  _add_life_table_functions df !! i
  = Some (let t := skip_mask (cell_Lx r) (fsum (fillna0 <$> drop i (col_Lx df))) in
          clean_life_row (mkLifeRow r (cell_px r) (cell_Lx r) t (cell_ex r t))).
Proof.
  intros Hr. unfold _add_life_table_functions.
  by rewrite list_lookup_fmap, (with_columns_lookup _ _ r).
Qed.

Lemma add_life_table_functions_base df :
  base <$> _add_life_table_functions df = clean_row <$> df.
Proof.
  apply list_eq. intros i. rewrite !list_lookup_fmap.
  destruct (df !! i) as [r|] eqn:Hr.
  - by rewrite (add_life_table_functions_lookup _ _ r).
  - rewrite (lookup_ge_None_2 (_add_life_table_functions df)); [done|].
    rewrite add_life_table_functions_length. by apply lookup_ge_None.
Qed.

(** ** Supplied values survive the completion *)

Lemma keeps_refl r : keeps r r.
Proof. by repeat split. Qed.

Lemma keeps_trans r1 r2 r3 : keeps r1 r2 → keeps r2 r3 → keeps r1 r3.
Proof.
  unfold keeps, kept. intros (Ha & Hl & Hq & Hd) (Ha' & Hl' & Hq' & Hd').
  split; [congruence|].
  repeat split; intros H.
  - rewrite Hl', Hl; [done..|]. by rewrite Hl.
  - rewrite Hq', Hq; [done..|]. by rewrite Hq.
  - rewrite Hd', Hd; [done..|]. by rewrite Hd.
Qed.

Lemma keeps_set_lx v r : isna (lx r) = true → keeps r (set_lx v r).
Proof. unfold keeps, kept. simpl. intros ->. by repeat split. Qed.

Lemma keeps_set_qx v r : isna (qx r) = true → keeps r (set_qx v r).
Proof. unfold keeps, kept. simpl. intros ->. by repeat split. Qed.

Lemma keeps_set_dx v r : isna (dx r) = true → keeps r (set_dx v r).
Proof. unfold keeps, kept. simpl. intros ->. by repeat split. Qed.

Lemma spec_step_a_keeps prev r : keeps r (spec_step_a prev r).
Proof.
  unfold spec_step_a. destruct prev as [p|]; [|apply keeps_refl].
  destruct (isna (lx r)) eqn:E; simpl; [|apply keeps_refl].
  case_match; [by apply keeps_set_lx | apply keeps_refl].
Qed.

Lemma spec_step_b_keeps r : keeps r (spec_step_b r).
Proof.
  unfold spec_step_b.
  destruct (isna (dx r)) eqn:E; simpl; [|apply keeps_refl].
  case_match; [by apply keeps_set_dx | apply keeps_refl].
Qed.

Lemma spec_step_c_keeps r : keeps r (spec_step_c r).
Proof.
  unfold spec_step_c.
  destruct (isna (qx r)) eqn:E; simpl; [|apply keeps_refl].
  case_match; [by apply keeps_set_qx | apply keeps_refl].
Qed.

Lemma spec_row_keeps prev r : keeps r (spec_row prev r).
Proof.
  unfold spec_row.
  eapply keeps_trans; [apply (spec_step_a_keeps prev)|].
  eapply keeps_trans; [apply spec_step_b_keeps|apply spec_step_c_keeps].
Qed.

Lemma spec_fill_lx_keeps prev r : keeps r (spec_fill_lx prev r).
Proof.
  unfold spec_fill_lx. destruct prev as [p|]; [|apply keeps_refl].
  destruct (isna (lx r)) eqn:E; simpl; [|apply keeps_refl].
  case_match; [by apply keeps_set_lx | apply keeps_refl].
Qed.

Lemma spec_pass1_keeps rows : ∀ prev, Forall2 keeps rows (spec_pass1 prev rows).
Proof.
  induction rows as [|r rows IH]; intros prev; simpl; constructor;
    [apply spec_row_keeps | apply IH].
Qed.

Lemma spec_pass2_keeps rows : ∀ prev, Forall2 keeps rows (spec_pass2 prev rows).
Proof.
  induction rows as [|r rows IH]; intros prev; simpl; constructor;
    [apply spec_fill_lx_keeps | apply IH].
Qed.

Lemma spec_radix_keeps radix rows : Forall2 keeps rows (spec_radix radix rows).
Proof.
  destruct rows as [|r rows]; simpl; constructor.
  - destruct (isna (lx r)) eqn:E; [by apply keeps_set_lx | apply keeps_refl].
  - apply Forall2_same_length_lookup. split; [done|].
    intros i x y Hx Hy. assert (x = y) as -> by congruence. apply keeps_refl.
Qed.

Lemma Forall2_keeps_trans l1 l2 l3 :
  Forall2 keeps l1 l2 → Forall2 keeps l2 l3 → Forall2 keeps l1 l3.
Proof.
  intros H. revert l3. induction H as [|x y l1 l2 Hxy _ IH]; intros l3 H3.
  - by inversion H3.
  - inversion H3; subst. constructor; [by eapply keeps_trans | by apply IH].
Qed.

Lemma spec_complete_keeps rows radix : Forall2 keeps rows (spec_complete rows radix).
Proof.
  unfold spec_complete.
  eapply Forall2_keeps_trans; [apply spec_radix_keeps|].
  eapply Forall2_keeps_trans; [apply spec_pass1_keeps|apply spec_pass2_keeps].
Qed.

(** A frame that [_complete_calculations] accepts has a first row, and the
    result is the two-pass recursion on it. *)
Lemma complete_calculations_Ok df radix df' :
  _complete_calculations df radix = Ok df' →
  df ≠ [] ∧ df' = spec_complete df radix.
Proof.
  destruct df as [|r rest]; [done|].
  rewrite complete_calculations_spec. intros [= <-]. done.
Qed.

Lemma clean_finite x : is_finite x = true → clean x = x.
Proof. by destruct x. Qed.


Lemma clean_idemp x : clean (clean x) = clean x.
Proof. by destruct x. Qed.

Lemma finite_notna x : is_finite x = true → isna x = false.
Proof. by destruct x. Qed.

(** ** The derived columns of the cleaned frame *)

Lemma cell_Lx_no_inf r :
  is_inf (lx r) = false → is_inf (dx r) = false →
  is_inf (cell_Lx r) = false
  ∧ notna (cell_Lx r) = notna (lx r) && notna (dx r).
Proof.
  unfold cell_Lx. by destruct (lx r) as [|s|a], (dx r) as [|t|b].
Qed.

Lemma clean_no_inf x : is_inf x = false → clean x = fillna0 x.
Proof. by destruct x. Qed.

Lemma fillna0_finite x : is_inf x = false → is_finite (fillna0 x) = true.
Proof. by destruct x. Qed.

Lemma fsum_finite l : Forall (λ x, is_finite x = true) l → is_finite (fsum l) = true.
Proof.
  induction 1 as [|x l Hx _ IH]; [done|].
  rewrite fsum_cons. destruct x, (fsum l); done.
Qed.

Lemma output_Lx df :
  Lx <$> _add_life_table_functions df = clean <$> col_Lx df.
Proof.
  apply list_eq. intros i. unfold col_Lx. rewrite !list_lookup_fmap.
  destruct (df !! i) as [r|] eqn:Hr.
  - by rewrite (add_life_table_functions_lookup _ _ r).
  - rewrite (lookup_ge_None_2 (_add_life_table_functions df)); [done|].
    rewrite add_life_table_functions_length. by apply lookup_ge_None.
Qed.

Section no_infinite_input.
Context (df : list Row).
Hypothesis no_inf : Forall (λ r, is_inf (lx r) = false ∧ is_inf (dx r) = false) df.

Lemma col_Lx_clean : clean <$> col_Lx df = fillna0 <$> col_Lx df.
Proof.
  unfold col_Lx. rewrite <-!list_fmap_compose.
  apply Forall_fmap_ext_1. eapply Forall_impl; [exact no_inf|].
  intros r [Hl Hd]. simpl. apply clean_no_inf. by apply cell_Lx_no_inf.
Qed.

Lemma col_Lx_filled_finite :
  Forall (λ x, is_finite x = true) (fillna0 <$> col_Lx df).
Proof.
  unfold col_Lx. rewrite <-list_fmap_compose. apply Forall_fmap.
  eapply Forall_impl; [exact no_inf|].
  intros r [Hl Hd]. simpl. apply fillna0_finite. by apply cell_Lx_no_inf.
Qed.

(** [Tx] of an output row: the sum of the output [Lx] from that row on when
    the row's own [Lx] could be computed, and [0] otherwise. *)
Lemma output_Tx i r o :
  df !! i = Some r →
  _add_life_table_functions df !! i = Some o →
  Tx o = if notna (lx r) && notna (dx r)
         then fsum (Lx <$> drop i (_add_life_table_functions df))
         else fzero.
Proof.
  intros Hr Ho.
  rewrite (add_life_table_functions_lookup _ _ r Hr) in Ho.
  injection Ho as <-. cbn -[fsum cell_Lx].
  rewrite !fmap_drop, output_Lx, col_Lx_clean.
  pose proof (proj1 (Forall_forall _ _) no_inf r) as Hinf.
  destruct Hinf as [Hl Hd]; [by eapply list_elem_of_lookup_2|].
  destruct (cell_Lx_no_inf r Hl Hd) as [_ <-].
  unfold skip_mask, notna. destruct (isna (cell_Lx r)); [done|].
  apply clean_finite, fsum_finite.
  apply Forall_drop, col_Lx_filled_finite.
Qed.
End no_infinite_input.

Lemma suffix_sum_reverse_cumsum out : suffix_sum out → reverse_cumsum out.
Proof.
  intros Hs i o Ho. rewrite (Hs i o Ho).
  rewrite (drop_S _ _ _ Ho), fmap_cons, fsum_cons.
  destruct (out !! S i) as [o'|] eqn:Ho'.
  - by rewrite (Hs (S i) o' Ho').
  - apply lookup_ge_None in Ho'. rewrite drop_ge by done.
    by rewrite fmap_nil, fsum_nil, fadd_zero_r.
Qed.

(** ** Running the calculator again *)

Lemma clean_clean_row r : clean_row (clean_row r) = clean_row r.
Proof. unfold clean_row. simpl. by rewrite !clean_idemp. Qed.

Lemma col_Lx_clean_rows df :
  Forall (λ r, is_finite (lx r) = true ∧ is_finite (qx r) = true
               ∧ is_finite (dx r) = true) df →
  col_Lx (clean_row <$> df) = col_Lx df.
Proof.
  intros H. unfold col_Lx. rewrite <-list_fmap_compose.
  apply Forall_fmap_ext_1. eapply Forall_impl; [exact H|].
  intros r (Hl & _ & Hd). unfold cell_Lx. simpl.
  by rewrite !clean_finite.
Qed.

Lemma add_life_table_functions_clean_rows df :
  Forall (λ r, is_finite (lx r) = true ∧ is_finite (qx r) = true
               ∧ is_finite (dx r) = true) df →
  _add_life_table_functions (clean_row <$> df) = _add_life_table_functions df.
Proof.
  intros H. apply list_eq. intros i.
  destruct (df !! i) as [r|] eqn:Hr.
  - rewrite (add_life_table_functions_lookup _ _ r Hr).
    rewrite (add_life_table_functions_lookup _ _ (clean_row r))
      by (by rewrite list_lookup_fmap, Hr).
    rewrite col_Lx_clean_rows by done.
    destruct (proj1 (Forall_forall _ _) H r) as (Hl & Hq & Hd);
      [by eapply list_elem_of_lookup_2|].
    cbv zeta.
    assert (cell_px (clean_row r) = cell_px r) as ->
      by (unfold cell_px; simpl; by rewrite clean_finite).
    assert (cell_Lx (clean_row r) = cell_Lx r) as ->
      by (unfold cell_Lx; simpl; by rewrite !clean_finite).
    assert (∀ t, cell_ex (clean_row r) t = cell_ex r t) as ->
      by (intros t; unfold cell_ex; simpl; by rewrite !clean_finite).
    unfold clean_life_row. simpl base. by rewrite clean_clean_row.
  - rewrite !lookup_ge_None_2; [done|..].
    + rewrite add_life_table_functions_length. by apply lookup_ge_None.
    + rewrite add_life_table_functions_length, length_fmap.
      by apply lookup_ge_None.
Qed.

(** ** Order facts on rationals and cells *)

Ltac qc_arith :=
  unfold Qcle, Qclt, Qcdiv, Qcminus, Qcplus, Qcmult, Qcopp, Q2Qc in *;
  simpl this in *; rewrite ?Qred_correct in *; try lra; try nra.

Lemma Qc_sub_le (a d : Qc) : 0 ≤ d → a - d ≤ a.
Proof. intros. qc_arith. Qed.

Lemma Qc_survive_le (a q : Qc) : 0 ≤ a → 0 ≤ q → a * (1 - q) ≤ a.
Proof. intros. qc_arith. Qed.

Lemma Qc_div_nonneg (d l : Qc) : 0 ≤ d → 0 < l → 0 ≤ d / l.
Proof.
  intros Hd Hl. unfold Qcdiv. apply Qcmult_nonneg_nonneg; [done|].
  apply Qclt_le_weak. by apply Qcinv_pos.
Qed.

Lemma Qc_complement (q : Qc) :
  0 ≤ q → q ≤ 1 → 0 ≤ 1 - q ∧ 1 - q ≤ 1.
Proof. intros. split; qc_arith. Qed.

Lemma Qc_complement_sum (q : Qc) : (1 - q) + q = 1.
Proof. ring. Qed.

Lemma of_int_nonneg (z : Z) : (0 ≤ z)%Z → absent_or_nonneg (of_int z) = true.
Proof.
  intros Hz. unfold of_int, absent_or_nonneg. apply bool_decide_eq_true_2.
  unfold Qcle, Q2Qc. simpl this. rewrite !Qred_correct.
  unfold Qle. simpl. lia.
Qed.

Lemma nonneg_cases x :
  absent_or_nonneg x = true → x = NaN ∨ ∃ q, x = Fin q ∧ 0 ≤ q.
Proof.
  destruct x as [|s|q]; simpl; [by left|done|].
  intros H%bool_decide_eq_true_1. right. by exists q.
Qed.

Lemma nonneg_Fin q : 0 ≤ q → absent_or_nonneg (Fin q) = true.
Proof. intros. by apply bool_decide_eq_true_2. Qed.

(** [max(0, x)] of a finite number: finite, not negative, and not above any
    non-negative bound of [x]. *)
Lemma py_max0_Fin q :
  ∃ m, py_max0 (Fin q) = Fin m ∧ 0 ≤ m ∧ ∀ a, 0 ≤ a → q ≤ a → m ≤ a.
Proof.
  unfold py_max0, fgtb, fzero. simpl. case_bool_decide as Hq.
  - exists q. split; [done|]. split; [by apply Qclt_le_weak|done].
  - exists 0. by split.
Qed.

(** [min(1.0, x)] of a number that is not negative lies between 0 and 1. *)
Lemma py_min1_unit x :
  fltb x fzero = false → isna x = false →
  ∃ m, py_min1 x = Fin m ∧ 0 ≤ m ∧ m ≤ 1.
Proof.
  unfold py_min1, fone, fzero. destruct x as [|s|q]; simpl; [done| |].
  - intros -> _. exists 1. by split.
  - intros Hq%bool_decide_eq_false_1 _. apply Qcnot_lt_le in Hq.
    case_bool_decide as H1.
    + exists q. split; [done|]. split; [done|by apply Qclt_le_weak].
    + exists 1. by split.
Qed.

(** ** Non-negative input stays non-negative *)

Lemma lx_spec_row prev r : lx (spec_row prev r) = lx (spec_step_a prev r).
Proof.
  unfold spec_row, spec_step_c, spec_step_b.
  repeat (case_match; simpl); done.
Qed.

Lemma spec_step_a_valid prev r :
  from_option valid_row True prev → valid_row r → valid_row (spec_step_a prev r).
Proof.
  destruct prev as [p|]; [|done]. simpl. intros (Hpl & _ & Hpd) (Hl & Hq & Hd).
  unfold spec_step_a. case_match eqn:E; [|done].
  split; [|done]. simpl.
  apply andb_prop in E as [_ [Hl'%negb_true_iff Hd'%negb_true_iff]%andb_prop].
  destruct (nonneg_cases _ Hpl) as [Hx|(a & Ha & ?)]; [by rewrite Hx in Hl'|].
  destruct (nonneg_cases _ Hpd) as [Hx|(d & Hdd & ?)]; [by rewrite Hx in Hd'|].
  rewrite Ha, Hdd. simpl.
  destruct (py_max0_Fin (a - d)) as (m & -> & Hm & _). by apply nonneg_Fin.
Qed.

Lemma spec_step_b_valid r : valid_row r → valid_row (spec_step_b r).
Proof.
  intros (Hl & Hq & Hd). unfold spec_step_b. case_match eqn:E; [|done].
  split; [done|]. split; [done|]. simpl.
  apply andb_prop in E as [_ [Hq'%negb_true_iff Hl'%negb_true_iff]%andb_prop].
  destruct (nonneg_cases _ Hl) as [Hx|(a & -> & ?)]; [by rewrite Hx in Hl'|].
  destruct (nonneg_cases _ Hq) as [Hx|(q & -> & ?)]; [by rewrite Hx in Hq'|].
  simpl. by apply nonneg_Fin, Qcmult_nonneg_nonneg.
Qed.

Lemma spec_step_c_valid r : valid_row r → valid_row (spec_step_c r).
Proof.
  intros (Hl & Hq & Hd). unfold spec_step_c. case_match eqn:E; [|done].
  split; [done|]. split; [|done]. simpl.
  apply andb_prop in E as [_ [Hd'%negb_true_iff Hl'%negb_true_iff]%andb_prop].
  destruct (nonneg_cases _ Hl) as [Hx|(a & Ha & ?)]; [by rewrite Hx in Hl'|].
  destruct (nonneg_cases _ Hd) as [Hx|(d & Hdd & ?)]; [by rewrite Hx in Hd'|].
  rewrite Ha, Hdd. unfold fgtb, fzero. simpl. case_bool_decide as Hpos; [|done].
  rewrite bool_decide_eq_false_2 by (by apply Qclt_not_eq, not_eq_sym in Hpos).
  destruct (py_min1_unit (Fin (d / a))) as (m & -> & Hm & _); [|done|].
  - simpl. apply bool_decide_eq_false_2, Qcle_not_lt. by apply Qc_div_nonneg.
  - by apply nonneg_Fin.
Qed.

Lemma spec_row_valid prev r :
  from_option valid_row True prev → valid_row r → valid_row (spec_row prev r).
Proof.
  intros Hp Hr. unfold spec_row.
  by apply spec_step_c_valid, spec_step_b_valid, spec_step_a_valid.
Qed.

Lemma spec_fill_lx_valid prev r :
  from_option valid_row True prev → valid_row r → valid_row (spec_fill_lx prev r).
Proof.
  destruct prev as [p|]; [|done]. simpl. intros (Hpl & Hpq & _) (Hl & Hq & Hd).
  unfold spec_fill_lx. case_match eqn:E; [|done].
  split; [|done]. simpl.
  apply andb_prop in E as [_ [Hl'%negb_true_iff Hq'%negb_true_iff]%andb_prop].
  destruct (nonneg_cases _ Hpl) as [Hx|(a & Ha & ?)]; [by rewrite Hx in Hl'|].
  destruct (nonneg_cases _ Hpq) as [Hx|(q & Hqq & ?)]; [by rewrite Hx in Hq'|].
  rewrite Ha, Hqq. simpl.
  destruct (py_max0_Fin (a * (1 - q))) as (m & -> & Hm & _). by apply nonneg_Fin.
Qed.

Lemma spec_pass1_valid rows : ∀ prev,
  from_option valid_row True prev → Forall valid_row rows →
  Forall valid_row (spec_pass1 prev rows).
Proof.
  induction rows as [|r rows IH]; intros prev Hp Hrows; simpl; [done|].
  inversion Hrows; subst.
  constructor; [by apply spec_row_valid|].
  apply IH; [|done]. simpl. by apply spec_row_valid.
Qed.

Lemma spec_pass2_valid rows : ∀ prev,
  from_option valid_row True prev → Forall valid_row rows →
  Forall valid_row (spec_pass2 prev rows).
Proof.
  induction rows as [|r rows IH]; intros prev Hp Hrows; simpl; [done|].
  inversion Hrows; subst.
  constructor; [by apply spec_fill_lx_valid|].
  apply IH; [|done]. simpl. by apply spec_fill_lx_valid.
Qed.

Lemma spec_radix_valid radix rows :
  (0 ≤ radix)%Z → Forall valid_row rows → Forall valid_row (spec_radix radix rows).
Proof.
  intros Hz Hrows. destruct rows as [|r rows]; simpl; [done|].
  inversion Hrows as [|?? (Hl & Hq & Hd) ?]; subst. constructor; [|done].
  case_match; [|done]. split; [|done]. simpl. by apply of_int_nonneg.
Qed.

(** ** Consecutive rows of the two passes *)

Lemma spec_pass1_lookup_S rows : ∀ prev i r1,
  spec_pass1 prev rows !! S i = Some r1 →
  ∃ p1 r', spec_pass1 prev rows !! i = Some p1
           ∧ rows !! S i = Some r' ∧ r1 = spec_row (Some p1) r'.
Proof.
  induction rows as [|r rows IH]; intros prev i r1; simpl; [done|].
  destruct i as [|i].
  - destruct rows as [|r' rows]; simpl; [done|].
    intros [= <-]. by exists (spec_row prev r), r'.
  - intros H. apply IH in H as (p1 & r' & ? & ? & ?). by exists p1, r'.
Qed.

Lemma spec_pass2_lookup_S rows : ∀ prev i r2,
  spec_pass2 prev rows !! S i = Some r2 →
  ∃ p2 r1, spec_pass2 prev rows !! i = Some p2
           ∧ rows !! S i = Some r1 ∧ r2 = spec_fill_lx (Some p2) r1.
Proof.
  induction rows as [|r rows IH]; intros prev i r2; simpl; [done|].
  destruct i as [|i].
  - destruct rows as [|r' rows]; simpl; [done|].
    intros [= <-]. by exists (spec_fill_lx prev r), r'.
  - intros H. apply IH in H as (p2 & r1 & ? & ? & ?). by exists p2, r1.
Qed.

Lemma spec_pass2_lookup rows : ∀ prev i p2,
  spec_pass2 prev rows !! i = Some p2 →
  ∃ prev' p1, rows !! i = Some p1 ∧ p2 = spec_fill_lx prev' p1.
Proof.
  induction rows as [|r rows IH]; intros prev i p2; simpl; [done|].
  destruct i as [|i]; simpl.
  - intros [= <-]. by exists prev, r.
  - apply IH.
Qed.

Lemma spec_radix_lookup_S radix rows i :
  spec_radix radix rows !! S i = rows !! S i.
Proof. by destruct rows. Qed.

Lemma spec_fill_lx_present prev r :
  isna (lx r) = false → lx (spec_fill_lx prev r) = lx r.
Proof. intros H. by destruct (spec_fill_lx_keeps prev r) as (_ & -> & _). Qed.

(** First pass: a row whose [lx] was absent either stays without [lx] or
    receives a value between [0] and the [lx] of the row before. *)
Lemma spec_row_lx_bound p1 r' :
  valid_row p1 → isna (lx r') = true →
  isna (lx (spec_row (Some p1) r')) = true
  ∨ ∃ a m, lx p1 = Fin a ∧ lx (spec_row (Some p1) r') = Fin m ∧ 0 ≤ m ∧ m ≤ a.
Proof.
  intros (Hpl & _ & Hpd) Hna. rewrite lx_spec_row. unfold spec_step_a.
  rewrite Hna. simpl. case_match eqn:E; [|by left]. right. simpl.
  apply andb_prop in E as [Hl'%negb_true_iff Hd'%negb_true_iff].
  destruct (nonneg_cases _ Hpl) as [Hx|(a & Ha & ?)]; [by rewrite Hx in Hl'|].
  destruct (nonneg_cases _ Hpd) as [Hx|(d & Hdd & ?)]; [by rewrite Hx in Hd'|].
  rewrite Ha, Hdd. simpl.
  destruct (py_max0_Fin (a - d)) as (m & -> & Hm & Hle).
  exists a, m. repeat split; [done|]. apply Hle; [done|by apply Qc_sub_le].
Qed.

(** Second pass: the same for a row still without [lx]. *)
Lemma spec_fill_lx_bound p2 r1 :
  valid_row p2 → isna (lx r1) = true →
  isna (lx (spec_fill_lx (Some p2) r1)) = true
  ∨ ∃ a m, lx p2 = Fin a ∧ lx (spec_fill_lx (Some p2) r1) = Fin m ∧ 0 ≤ m ∧ m ≤ a.
Proof.
  intros (Hpl & Hpq & _) Hna. unfold spec_fill_lx.
  rewrite Hna. simpl. case_match eqn:E; [|by left]. right. simpl.
  apply andb_prop in E as [Hl'%negb_true_iff Hq'%negb_true_iff].
  destruct (nonneg_cases _ Hpl) as [Hx|(a & Ha & ?)]; [by rewrite Hx in Hl'|].
  destruct (nonneg_cases _ Hpq) as [Hx|(q & Hqq & ?)]; [by rewrite Hx in Hq'|].
  rewrite Ha, Hqq. simpl.
  destruct (py_max0_Fin (a * (1 - q))) as (m & -> & Hm & Hle).
  exists a, m. repeat split; [done|]. apply Hle; [done|by apply Qc_survive_le].
Qed.

Lemma clean_nonneg x : absent_or_nonneg x = true → fle fzero (clean x).
Proof. destruct x as [|s|q]; simpl; [done..|]. by intros ?%bool_decide_eq_true_1. Qed.

(** In the completed table of a non-negative input, a row whose [lx] was
    absent in the input does not exceed the row before it, once cleaned. *)
Lemma completed_lx_step df radix i r' p2 r2 :
  (0 ≤ radix)%Z → Forall valid_row df →
  df !! S i = Some r' → isna (lx r') = true →
  spec_complete df radix !! i = Some p2 →
  spec_complete df radix !! S i = Some r2 →
  fle (clean (lx r2)) (clean (lx p2)).
Proof.
  intros Hz Hdf Hr' Hna Hp2 Hr2. unfold spec_complete in *.
  set (rows0 := spec_radix radix df) in *.
  set (rows1 := spec_pass1 None rows0) in *.
  assert (Forall valid_row rows0) as Hv0 by (by apply spec_radix_valid).
  assert (Forall valid_row rows1) as Hv1 by (by apply spec_pass1_valid).
  assert (Forall valid_row (spec_pass2 None rows1)) as Hv2
    by (by apply spec_pass2_valid).
  assert (valid_row p2) as Hvp2
    by (eapply (proj1 (Forall_forall _ _) Hv2), list_elem_of_lookup_2, Hp2).
  apply spec_pass2_lookup_S in Hr2 as (p2' & r1 & Hp2' & Hr1 & ->).
  assert (p2' = p2) as -> by (rewrite Hp2 in Hp2'; by injection Hp2').
  apply spec_pass1_lookup_S in Hr1 as (p1 & r0 & Hp1 & Hr0 & ->).
  unfold rows0 in Hr0. rewrite spec_radix_lookup_S, Hr' in Hr0.
  injection Hr0 as <-.
  assert (valid_row p1) as Hvp1
    by (eapply (proj1 (Forall_forall _ _) Hv1), list_elem_of_lookup_2, Hp1).
  destruct (spec_pass2_lookup _ _ _ _ Hp2) as (prev' & p1' & Hp1' & Hp2eq).
  assert (p1' = p1) as ->
    by (unfold rows1 in Hp1'; rewrite Hp1 in Hp1'; by injection Hp1').
  destruct (spec_row_lx_bound p1 r' Hvp1 Hna) as [Hstill|(a & m & Ha & Hm & H0 & Hle)].
  - destruct (spec_fill_lx_bound p2 _ Hvp2 Hstill)
      as [Hnan|(a & m & Ha & Hm & H0 & Hle)].
    + destruct (lx (spec_fill_lx _ _)); [|done..]. simpl.
      apply clean_nonneg, Hvp2.
    + by rewrite Ha, Hm.
  - rewrite spec_fill_lx_present by (by rewrite Hm).
    rewrite Hp2eq, spec_fill_lx_present by (by rewrite Ha).
    by rewrite Ha, Hm.
Qed.

(** ** The death rate stays between 0 and 1 *)

Lemma py_min1_bounds x :
  fltb x fzero = false → ∃ m, py_min1 x = Fin m ∧ 0 ≤ m ∧ m ≤ 1.
Proof.
  intros Hx. destruct (isna x) eqn:E.
  - destruct x; [|done..]. exists 1. by split.
  - by apply py_min1_unit.
Qed.

Lemma fdiv_not_negative d l :
  fltb d fzero = false → fgtb l fzero = true → fltb (fdiv d l) fzero = false.
Proof.
  unfold fgtb, fzero.
  destruct d as [|s|a], l as [|t|b]; simpl; try done.
  - intros -> Hb%bool_decide_eq_true_1. unfold qneg.
    rewrite bool_decide_eq_false_2; [done|].
    apply Qcle_not_lt. by apply Qclt_le_weak.
  - intros Ha%bool_decide_eq_false_1 Hb%bool_decide_eq_true_1.
    apply Qcnot_lt_le in Ha.
    rewrite bool_decide_eq_false_2 by (by apply Qclt_not_eq, not_eq_sym in Hb).
    simpl. apply bool_decide_eq_false_2, Qcle_not_lt. by apply Qc_div_nonneg.
Qed.

Lemma unit_Fin m : 0 ≤ m → m ≤ 1 → absent_or_unit (Fin m) = true.
Proof. intros. simpl. by rewrite !bool_decide_eq_true_2. Qed.

Lemma spec_row_unit prev r :
  unit_row r → absent_or_unit (qx (spec_row prev r)) = true.
Proof.
  intros [Hq Hd]. unfold spec_row.
  assert (qx (spec_step_a prev r) = qx r ∧ dx (spec_step_a prev r) = dx r)
    as [Hqa Hda].
  { unfold spec_step_a. destruct prev; [|done]. by case_match. }
  set (ra := spec_step_a prev r) in *. clearbody ra.
  unfold spec_step_b. case_match eqn:Eb.
  - apply andb_prop in Eb as [_ [Hq'%negb_true_iff _]%andb_prop].
    unfold spec_step_c. simpl. rewrite Hq'. simpl. by rewrite Hqa.
  - unfold spec_step_c. case_match eqn:Ec; [|by rewrite Hqa].
    simpl. case_match eqn:El; [|by apply unit_Fin].
    destruct (py_min1_bounds (fdiv (dx ra) (lx ra))) as (m & -> & ? & ?).
    + apply fdiv_not_negative; [by rewrite Hda|done].
    + by apply unit_Fin.
Qed.

Lemma spec_pass1_unit rows : ∀ prev,
  Forall unit_row rows →
  Forall (λ r, absent_or_unit (qx r) = true) (spec_pass1 prev rows).
Proof.
  induction rows as [|r rows IH]; intros prev Hrows; simpl; [done|].
  inversion Hrows; subst. constructor; [by apply spec_row_unit|by apply IH].
Qed.

Lemma qx_spec_fill_lx prev r : qx (spec_fill_lx prev r) = qx r.
Proof. unfold spec_fill_lx. destruct prev; [|done]. by case_match. Qed.

Lemma spec_pass2_unit rows : ∀ prev,
  Forall (λ r, absent_or_unit (qx r) = true) rows →
  Forall (λ r, absent_or_unit (qx r) = true) (spec_pass2 prev rows).
Proof.
  induction rows as [|r rows IH]; intros prev Hrows; simpl; [done|].
  inversion Hrows; subst.
  constructor; [by rewrite qx_spec_fill_lx|by apply IH].
Qed.

Lemma spec_radix_unit radix rows :
  Forall unit_row rows → Forall unit_row (spec_radix radix rows).
Proof.
  intros Hrows. destruct rows as [|r rows]; simpl; [done|].
  inversion Hrows; subst. constructor; [|done]. by case_match.
Qed.

Lemma spec_complete_unit rows radix :
  Forall unit_row rows →
  Forall (λ r, absent_or_unit (qx r) = true) (spec_complete rows radix).
Proof.
  intros H. unfold spec_complete.
  by apply spec_pass2_unit, spec_pass1_unit, spec_radix_unit.
Qed.

(** The output row of a completed row whose [qx] is absent or between 0 and 1. *)
Lemma output_rates (r : Row) (t l e : float64) :
  absent_or_unit (qx r) = true →
  let o := clean_life_row (mkLifeRow r (cell_px r) l t e) in
  in_bounds o
  ∧ (if notna (qx r) then complementary o
     else px o = fzero ∧ qx (base o) = fzero).
Proof.
  intros Hq. unfold in_bounds, complementary, clean_life_row, clean_row, cell_px.
  simpl. destruct (qx r) as [|s|q]; simpl in *; [|done|].
  - repeat split; done.
  - apply andb_prop in Hq as [H0%bool_decide_eq_true_1 H1%bool_decide_eq_true_1].
    destruct (Qc_complement q H0 H1) as [? ?].
    repeat split; try done. by rewrite Qc_complement_sum.
Qed.

Lemma output_lookup_inv df i o :
  _add_life_table_functions df !! i = Some o →
  ∃ r, df !! i = Some r ∧ base o = clean_row r.
Proof.
  intros Ho. destruct (df !! i) as [r|] eqn:Hr.
  - exists r. split; [done|].
    rewrite (add_life_table_functions_lookup _ _ r Hr) in Ho.
    by injection Ho as <-.
  - apply lookup_ge_None in Hr. apply lookup_lt_Some in Ho.
    rewrite add_life_table_functions_length in Ho. lia.
Qed.

Lemma spec_complete_length df radix : length (spec_complete df radix) = length df.
Proof. symmetry. eapply Forall2_length, spec_complete_keeps. Qed.

(** ** Column validation *)

Lemma find_alternative_None alternatives cols :
  find_alternative alternatives cols = None ↔ ∀ s, s ∈ alternatives → s ∉ cols.
Proof.
  induction alternatives as [|alt rest IH]; simpl.
  - split; [|done]. intros _ s Hs. by apply not_elem_of_nil in Hs.
  - case_bool_decide as Hin.
    + split; [done|]. intros H. destruct (H alt); [left|done].
    + rewrite IH. split.
      * intros H s [->|Hs]%elem_of_cons; [done|by apply H].
      * intros H s Hs. apply H. by right.
Qed.

Lemma find_alternative_Some alternatives cols a :
  find_alternative alternatives cols = Some a → a ∈ alternatives ∧ a ∈ cols.
Proof.
  induction alternatives as [|alt rest IH]; simpl; [done|].
  case_bool_decide as Hin.
  - intros [= <-]. split; [left|done].
  - intros [? ?]%IH. split; [by right|done].
Qed.

Lemma unmatched_find synonyms df :
  unmatched synonyms df ↔ find_alternative synonyms (columns df) = None.
Proof. by rewrite find_alternative_None. Qed.

(** What [validate_columns] returns, by the two mandatory columns. *)
Lemma map_columns_no_age cols :
  find_alternative age_synonyms cols = None →
  map_columns column_mapping cols [] = Err (MissingRequiredColumn "yaş").
Proof.
  intros H. unfold column_mapping. cbn [map_columns]. by rewrite H.
Qed.

Lemma map_columns_no_qx cols a :
  find_alternative age_synonyms cols = Some a →
  find_alternative qx_synonyms cols = None →
  map_columns column_mapping cols [] = Err (MissingRequiredColumn "qx").
Proof.
  intros Ha Hq. unfold column_mapping. cbn [map_columns].
  rewrite Ha, Hq. by destruct (find_alternative lx_synonyms cols).
Qed.

Lemma map_columns_both cols a q :
  find_alternative age_synonyms cols = Some a →
  find_alternative qx_synonyms cols = Some q →
  ∃ mapped, map_columns column_mapping cols [] = Ok mapped
            ∧ ("yaş", a) ∈ mapped.
Proof.
  intros Ha Hq. unfold column_mapping. cbn [map_columns].
  rewrite Ha, Hq.
  destruct (find_alternative lx_synonyms cols),
           (find_alternative dx_synonyms cols);
    eexists; (split; [done|]); cbn [app]; by left.
Qed.

(** Every entry of [mapped_columns] pairs a canonical name with the
    alternative found for it. *)
Lemma map_columns_entries mapping cols : ∀ acc res,
  map_columns mapping cols acc = Ok res →
  ∀ k v, (k, v) ∈ res →
    (k, v) ∈ acc
    ∨ ∃ alts, (k, alts) ∈ mapping ∧ find_alternative alts cols = Some v.
Proof.
  induction mapping as [|[standard_col alternatives] rest IH];
    intros acc res; simpl.
  - intros [= <-] k v Hkv. by left.
  - destruct (find_alternative alternatives cols) as [alt|] eqn:Hf.
    + intros Hres k v Hkv.
      destruct (IH _ _ Hres k v Hkv) as [Hacc|(alts & ? & ?)].
      * apply elem_of_app in Hacc as [?|Hone]; [by left|].
        apply list_elem_of_singleton in Hone as [= -> ->].
        right. exists alternatives. split; [left|done].
      * right. exists alts. split; [by right|done].
    + repeat case_bool_decide; try done.
      intros Hres k v Hkv.
      destruct (IH _ _ Hres k v Hkv) as [Hacc|(alts & ? & ?)]; [by left|].
      right. exists alts. split; [by right|done].
Qed.

Lemma rename_dict_get_Some mapped c k :
  rename_dict_get mapped c = Some k → (k, c) ∈ mapped.
Proof.
  induction mapped as [|[k' v'] rest IH]; simpl; [done|].
  destruct (rename_dict_get rest c) as [k''|].
  - intros [= <-]. right. by apply IH.
  - case_bool_decide; [|done]. intros [= <-]. subst. left.
Qed.

Lemma rename_dict_get_is_Some mapped c k :
  (k, c) ∈ mapped → is_Some (rename_dict_get mapped c).
Proof.
  induction mapped as [|[k' v'] rest IH]; simpl.
  - by intros ?%not_elem_of_nil.
  - intros [[= <- <-]|Hin]%elem_of_cons.
    + destruct (rename_dict_get rest c); [done|].
      by rewrite bool_decide_eq_true_2.
    + destruct (IH Hin) as [k'' ->]. done.
Qed.

(** The synonym lists do not overlap: an alternative names one canonical
    column. *)
Lemma synonyms_disjoint k1 alts1 k2 alts2 s :
  (k1, alts1) ∈ column_mapping → (k2, alts2) ∈ column_mapping →
  s ∈ alts1 → s ∈ alts2 → k1 = k2.
Proof.
  unfold column_mapping. rewrite !elem_of_cons, !elem_of_nil.
  intros H1 H2.
  destruct H1 as [H1|[H1|[H1|[H1|[]]]]]; injection H1 as -> ->;
    destruct H2 as [H2|[H2|[H2|[H2|[]]]]]; injection H2 as -> ->;
    try done;
    unfold age_synonyms, lx_synonyms, qx_synonyms, dx_synonyms;
    rewrite !elem_of_cons, !elem_of_nil; intros Hs1 Hs2;
    repeat (destruct Hs1 as [->|Hs1]; [exfalso; revert Hs2; compute_done|]);
    done.
Qed.

(** ** [create_mortality_table], step by step *)

Lemma validate_columns_no_age d :
  unmatched age_synonyms d →
  validate_columns d = (Err (MissingRequiredColumn "yaş"), d).
Proof.
  intros H%unmatched_find. unfold validate_columns.
  by rewrite map_columns_no_age.
Qed.

Lemma validate_columns_no_qx d :
  ¬ unmatched age_synonyms d → unmatched qx_synonyms d →
  validate_columns d = (Err (MissingRequiredColumn "qx"), d).
Proof.
  rewrite !unmatched_find. intros Ha Hq. unfold validate_columns.
  destruct (find_alternative age_synonyms (columns d)) as [a|] eqn:E; [|done].
  by rewrite (map_columns_no_qx _ a).
Qed.

Lemma validate_columns_Ok d :
  ¬ unmatched age_synonyms d → ¬ unmatched qx_synonyms d →
  ∃ a mapped,
    find_alternative age_synonyms (columns d) = Some a
    ∧ map_columns column_mapping (columns d) [] = Ok mapped
    ∧ ("yaş", a) ∈ mapped
    ∧ validate_columns d = (Ok (), rename_columns mapped d).
Proof.
  rewrite !unmatched_find. intros Ha Hq. unfold validate_columns.
  destruct (find_alternative age_synonyms (columns d)) as [a|] eqn:Ea; [|done].
  destruct (find_alternative qx_synonyms (columns d)) as [q|] eqn:Eq; [|done].
  destruct (map_columns_both _ a q Ea Eq) as (mapped & Hm & Hin).
  exists a, mapped. by rewrite Hm.
Qed.

Lemma unmatched_dec synonyms d : Decision (unmatched synonyms d).
Proof.
  destruct (find_alternative synonyms (columns d)) eqn:E.
  - right. rewrite unmatched_find. congruence.
  - left. by rewrite unmatched_find.
Qed.

Lemma life_table_Err df radix e : life_table df radix = Err e → e = IndexError.
Proof.
  unfold life_table. destruct df as [|r rest].
  - by intros [= <-].
  - by rewrite complete_calculations_spec.
Qed.

Lemma life_table_Ok df radix out :
  life_table df radix = Ok out →
  df ≠ [] ∧ out = _add_life_table_functions (spec_complete df radix).
Proof.
  unfold life_table. destruct df as [|r rest]; [done|].
  rewrite complete_calculations_spec. by intros [= <-].
Qed.

(** The value returned for a generator that holds a frame. *)
Lemma create_mortality_table_result d mt radix :
  (create_mortality_table (mkGenerator (Some d) mt) radix).1
  = match validate_columns d with
    | (Err e, _) => Err e
    | (Ok _, d') =>
        match sorted_frame d' with
        | Err e => Err e
        | Ok df =>
            if bool_decide (df ≠ []) && ambiguous d' then Err ValueError
            else life_table df radix
        end
    end.
Proof.
  unfold create_mortality_table. simpl.
  destruct (validate_columns d) as [[u|e] d']; [|done].
  destruct (sorted_frame d') as [df|e]; [|done].
  destruct (bool_decide (df ≠ []) && ambiguous d'); [done|].
  by destruct (life_table df radix).
Qed.

(** [self.data] afterwards is what [validate_columns] left. *)
Lemma create_mortality_table_data d mt radix :
  data (create_mortality_table (mkGenerator (Some d) mt) radix).2
  = Some (validate_columns d).2.
Proof.
  unfold create_mortality_table. simpl.
  destruct (validate_columns d) as [[u|e] d']; [|done].
  destruct (sorted_frame d') as [df|e]; [|done].
  destruct (bool_decide (df ≠ []) && ambiguous d'); [done|].
  by destruct (life_table df radix).
Qed.

Lemma sorted_frame_Err d e : sorted_frame d = Err e → e = ValueError.
Proof. unfold sorted_frame. case_bool_decide; [by intros [= <-]|done]. Qed.

Lemma validated_result_not_missing d' radix field :
  match sorted_frame d' with
  | Err e => Err e
  | Ok df =>
      if bool_decide (df ≠ []) && ambiguous d' then Err ValueError
      else life_table df radix
  end ≠ Err (MissingRequiredColumn field).
Proof.
  destruct (sorted_frame d') as [df|e] eqn:E.
  - destruct (bool_decide (df ≠ []) && ambiguous d'); [done|].
    intros H%life_table_Err. done.
  - apply sorted_frame_Err in E as ->. done.
Qed.

(** ** Columns that are not matched read as absent *)

Lemma get_column_None df c : c ∉ columns df → get_column df c = None.
Proof.
  intros Hc. unfold get_column.
  destruct (filter (λ p, p.1 = c) df) as [|p l] eqn:E; [done|].
  assert (p ∈ filter (λ p, p.1 = c) df) as Hp by (rewrite E; left).
  apply list_elem_of_filter in Hp as [<- Hp]. destruct Hc.
  unfold columns. by apply list_elem_of_fmap_2.
Qed.

Lemma columns_rename mapped d :
  columns (rename_columns mapped d) = rename_label mapped <$> columns d.
Proof.
  unfold columns, rename_columns. rewrite <-!list_fmap_compose.
  apply list_fmap_ext. by intros i [c v].
Qed.

(** After validation, a canonical label whose synonyms are all unmatched names
    no column. *)
Lemma canonical_label_absent d mapped k alts :
  map_columns column_mapping (columns d) [] = Ok mapped →
  (k, alts) ∈ column_mapping → k ∈ alts →
  unmatched alts d →
  k ∉ columns (rename_columns mapped d).
Proof.
  intros Hm Hk Hself Hun. rewrite columns_rename.
  intros (c & Hc & Hin)%list_elem_of_fmap.
  unfold rename_label in Hc.
  destruct (rename_dict_get mapped c) as [k'|] eqn:Hget; simpl in Hc; subst.
  - apply rename_dict_get_Some in Hget.
    destruct (map_columns_entries _ _ _ _ Hm _ _ Hget)
      as [[]%not_elem_of_nil|(alts' & Hk' & Hf)].
    apply find_alternative_Some in Hf as [Hc _].
    assert (alts' = alts) as ->.
    { revert Hk Hk'. unfold column_mapping.
      rewrite !elem_of_cons, !elem_of_nil. intros H1 H2.
      destruct H1 as [H1|[H1|[H1|[H1|[]]]]]; injection H1 as ? ->;
        destruct H2 as [H2|[H2|[H2|[H2|[]]]]]; injection H2 as ? ->;
        congruence. }
    by apply (Hun c).
  - by apply (Hun c).
Qed.


Lemma frame_rows_lx_absent d :
  get_column d "lx" = None → Forall (λ r, lx r = NaN) (frame_rows d).
Proof.
  intros H. unfold frame_rows. rewrite H.
  apply Forall_lookup_2. intros i r. rewrite list_lookup_imap.
  destruct (default [] (get_column d "yaş") !! i); simpl; [|done].
  by intros [= <-].
Qed.

Lemma frame_rows_dx_absent d :
  get_column d "dx" = None → Forall (λ r, dx r = NaN) (frame_rows d).
Proof.
  intros H. unfold frame_rows. rewrite H.
  apply Forall_lookup_2. intros i r. rewrite list_lookup_imap.
  destruct (default [] (get_column d "yaş") !! i); simpl; [|done].
  by intros [= <-].
Qed.

Lemma insert_row_Permutation r l : insert_row r l ≡ₚ r :: l.
Proof.
  induction l as [|r' l IH]; simpl; [done|].
  destruct (yas_leb r r'); [done|]. by rewrite IH, Permutation_swap.
Qed.

Lemma sort_values_Permutation l : sort_values l ≡ₚ l.
Proof.
  induction l as [|r l IH]; simpl; [done|].
  by rewrite insert_row_Permutation, IH.
Qed.

Lemma sorted_frame_Ok d df :
  sorted_frame d = Ok df →
  (count_label d "yaş" ≤ 1)%nat ∧ df = sort_values (frame_rows d).
Proof.
  unfold sorted_frame. case_bool_decide; [done|]. intros [= <-]. split; [lia|done].
Qed.

Lemma sorted_frame_Forall (P : Row → Prop) d df :
  sorted_frame d = Ok df → Forall P (frame_rows d) → Forall P df.
Proof.
  intros [_ ->]%sorted_frame_Ok H. by rewrite sort_values_Permutation.
Qed.

(** ** Renaming touches labels only *)

Lemma rename_columns_values mapped d : snd <$> rename_columns mapped d = snd <$> d.
Proof.
  unfold rename_columns. rewrite <-list_fmap_compose.
  apply list_fmap_ext. by intros i [c v].
Qed.

Lemma rename_label_cases d mapped c :
  map_columns column_mapping (columns d) [] = Ok mapped →
  rename_label mapped c = c
  ∨ ∃ alts, (rename_label mapped c, alts) ∈ column_mapping ∧ c ∈ alts.
Proof.
  intros Hm. unfold rename_label.
  destruct (rename_dict_get mapped c) as [k|] eqn:Hget; simpl; [|by left].
  right. apply rename_dict_get_Some in Hget.
  destruct (map_columns_entries _ _ _ _ Hm _ _ Hget)
    as [[]%not_elem_of_nil|(alts & Hk & Hf)].
  apply find_alternative_Some in Hf as [Hc _]. by exists alts.
Qed.

Lemma validate_columns_labels d :
  snd <$> (validate_columns d).2 = snd <$> d
  ∧ Forall2 (λ c c', c' = c ∨ ∃ alts, (c', alts) ∈ column_mapping ∧ c ∈ alts)
            (columns d) (columns (validate_columns d).2).
Proof.
  unfold validate_columns.
  destruct (map_columns column_mapping (columns d) []) as [mapped|e] eqn:Hm; simpl.
  - split; [apply rename_columns_values|].
    rewrite columns_rename. apply Forall2_fmap_r, Forall_Forall2_diag.
    apply Forall_forall. intros c _. by apply (rename_label_cases d).
  - split; [done|]. apply Forall_Forall2_diag, Forall_forall. intros c _. by left.
Qed.

Lemma validate_columns_Err d e : (validate_columns d).1 = Err e → (validate_columns d).2 = d.
Proof.
  unfold validate_columns.
  by destruct (map_columns column_mapping (columns d) []).
Qed.

(** ** The age column through the pipeline *)

Lemma rename_label_age d mapped a :
  map_columns column_mapping (columns d) [] = Ok mapped →
  find_alternative age_synonyms (columns d) = Some a →
  ("yaş", a) ∈ mapped →
  rename_label mapped a = "yaş".
Proof.
  intros Hm Ha Hin. unfold rename_label.
  destruct (rename_dict_get_is_Some _ _ _ Hin) as [k Hk]. rewrite Hk. simpl.
  apply rename_dict_get_Some in Hk.
  destruct (map_columns_entries _ _ _ _ Hm _ _ Hk)
    as [[]%not_elem_of_nil|(alts & Halts & Hf)].
  apply find_alternative_Some in Hf as [Hc _].
  apply find_alternative_Some in Ha as [Hage _].
  apply (synonyms_disjoint k alts "yaş" age_synonyms a); try done.
  compute_done.
Qed.

Section renamed_column.
Context (rn : string → string) (a target : string).
Hypothesis rn_a : rn a = target.

Let relabel (p : string * list float64) : string * list float64 :=
  (rn p.1, p.2).

Lemma renamed_count_pos (d : Frame) :
  a ∈ columns d → (1 ≤ count_label (relabel <$> d) target)%nat.
Proof.
  unfold count_label, columns.
  induction d as [|[c v] d IH].
  - by intros ?%not_elem_of_nil.
  - rewrite !fmap_cons,
      (filter_cons (λ p : string * list float64, p.1 = target)).
    intros [Hc|Hin]%elem_of_cons.
    + simpl in Hc. subst c. rewrite decide_True by done. simpl. lia.
    + specialize (IH Hin). case_decide; [simpl; lia|done].
Qed.

(** When the target label names one column only, that column is the first
    one labelled [a] before the renaming. *)
Lemma renamed_get_column (d : Frame) :
  a ∈ columns d → (count_label (relabel <$> d) target ≤ 1)%nat →
  get_column (relabel <$> d) target = get_column d a.
Proof.
  unfold get_column, count_label, columns.
  induction d as [|[c v] d IH]; [done|].
  rewrite !fmap_cons,
    (filter_cons (λ p : string * list float64, p.1 = target)),
    (filter_cons (λ p : string * list float64, p.1 = a)).
  intros Hin Hcount.
  destruct (decide (c = a)) as [->|Hne].
  - rewrite !decide_True by done. done.
  - rewrite (decide_False (P := (c, v).1 = a)) by done.
    apply elem_of_cons in Hin as [Hin|Hin]; [by simpl in Hin|].
    case_decide as Hrn.
    + pose proof (renamed_count_pos d Hin) as Hpos.
      unfold count_label in Hpos. rewrite length_cons in Hcount.
      exfalso. apply (Nat.lt_irrefl 0).
      eapply Nat.lt_le_trans; [exact Hpos|]. apply le_S_n. exact Hcount.
    + by apply IH.
Qed.
End renamed_column.

Lemma rename_columns_relabel mapped d :
  rename_columns mapped d = (λ p, (rename_label mapped p.1, p.2)) <$> d.
Proof. unfold rename_columns. apply list_fmap_ext. by intros i [c v]. Qed.

Lemma frame_rows_yas d : yas <$> frame_rows d = default [] (get_column d "yaş").
Proof.
  unfold frame_rows. rewrite fmap_imap.
  apply list_eq. intros i. rewrite list_lookup_imap.
  by destruct (default [] (get_column d "yaş") !! i).
Qed.

Lemma Forall2_keeps_yas l1 l2 : Forall2 keeps l1 l2 → yas <$> l2 = yas <$> l1.
Proof.
  induction 1 as [|r r' l1 l2 (Hy & _) _ IH]; [done|].
  by rewrite !fmap_cons, Hy, IH.
Qed.

Lemma output_ages df :
  (yas ∘ base) <$> _add_life_table_functions df = clean <$> (yas <$> df).
Proof.
  rewrite list_fmap_compose, add_life_table_functions_base.
  rewrite <-!list_fmap_compose. done.
Qed.

Lemma clean_finite_list l :
  Forall (λ x, is_finite x = true) l → clean <$> l = l.
Proof.
  intros H. rewrite <-(list_fmap_id l) at 2.
  apply Forall_fmap_ext_1. eapply Forall_impl; [exact H|].
  intros x Hx. by apply clean_finite.
Qed.

Lemma get_column_is_Some (d : Frame) c : c ∈ columns d → is_Some (get_column d c).
Proof.
  unfold columns, get_column. intros ([c' v] & -> & Hin)%list_elem_of_fmap.
  destruct (filter (λ p, p.1 = (c', v).1) d) as [|p l] eqn:E; [|by eexists].
  assert ((c', v) ∈ filter (λ p, p.1 = (c', v).1) d) as Hf
    by (by apply list_elem_of_filter).
  rewrite E in Hf. by apply not_elem_of_nil in Hf.
Qed.

Lemma fltb_asym x y : fltb x y = true → fltb y x = false.
Proof.
  destruct x as [|s|a], y as [|t|b]; simpl; try done.
  - by destruct s, t.
  - by destruct s.
  - by destruct t.
  - intros H%bool_decide_eq_true_1. apply bool_decide_eq_false_2.
    intros H'. by apply (irreflexivity Qclt a); trans b.
Qed.

#[global] Instance yas_le_total : Total yas_le.
Proof.
  intros r1 r2. unfold yas_le, yas_leb, notna.
  destruct (isna (yas r2)) eqn:E2; [by left|].
  destruct (isna (yas r1)) eqn:E1; [by right|].
  simpl. destruct (fltb (yas r2) (yas r1)) eqn:E; [|by left].
  right. by rewrite (fltb_asym _ _ E).
Qed.

Lemma insert_row_Sorted r l : Sorted yas_le l → Sorted yas_le (insert_row r l).
Proof.
  induction 1 as [|r' l Hs IH Hd]; simpl; [by repeat constructor|].
  destruct (yas_leb r r') eqn:E.
  - constructor; [by constructor|]. constructor. unfold yas_le. by rewrite E.
  - assert (yas_le r' r) as Hr.
    { destruct (total yas_le r r') as [H|H]; [|done].
      unfold yas_le in H. by rewrite E in H. }
    constructor; [done|].
    destruct Hd as [|r'' l' Hd]; simpl; [by constructor|].
    destruct (yas_leb r r''); by constructor.
Qed.

Lemma sort_values_Sorted l : Sorted yas_le (sort_values l).
Proof.
  induction l as [|r l IH]; simpl; [constructor|]. by apply insert_row_Sorted.
Qed.

Lemma Sorted_lookup_adjacent {A} (R : relation A) (l : list A) i x y :
  Sorted R l → l !! i = Some x → l !! S i = Some y → R x y.
Proof.
  intros Hs. revert i. induction Hs as [|z l Hs IH Hd]; intros i; [done|].
  destruct i as [|i]; simpl.
  - intros [= ->] Hy. destruct Hd as [|w l' Hr]; [done|].
    simpl in Hy. by injection Hy as <-.
  - apply IH.
Qed.

Lemma yas_le_finite r1 r2 :
  is_finite (yas r1) = true → is_finite (yas r2) = true →
  yas_le r1 r2 → fle (yas r1) (yas r2).
Proof.
  unfold yas_le, yas_leb.
  destruct (yas r1) as [|s|a], (yas r2) as [|t|b]; try done. simpl.
  intros _ _ H%Is_true_true%negb_true_iff%bool_decide_eq_false_1.
  by apply Qcnot_lt_le.
Qed.

(** What a successful run returns: the calculator applied to the completed,
    sorted rows of the validated frame, whose age column is the first input
    column labelled with the matched age synonym. *)
Lemma create_mortality_table_Ok d mt radix out :
  (create_mortality_table (mkGenerator (Some d) mt) radix).1 = Ok out →
  ∃ a ages df,
    find_alternative age_synonyms (columns d) = Some a
    ∧ get_column d a = Some ages
    ∧ df ≡ₚ frame_rows (validate_columns d).2
    ∧ Sorted yas_le df
    ∧ yas <$> frame_rows (validate_columns d).2 = ages
    ∧ df ≠ []
    ∧ out = _add_life_table_functions (spec_complete df radix).
Proof.
  rewrite create_mortality_table_result.
  destruct (unmatched_dec age_synonyms d) as [Ha|Ha];
    [by rewrite (validate_columns_no_age d Ha)|].
  destruct (unmatched_dec qx_synonyms d) as [Hq|Hq];
    [by rewrite (validate_columns_no_qx d Ha Hq)|].
  destruct (validate_columns_Ok d Ha Hq) as (a & mapped & Hfa & Hm & Hin & ->).
  simpl.
  destruct (sorted_frame (rename_columns mapped d)) as [df|e] eqn:Hs; [|done].
  destruct (bool_decide (df ≠ []) && ambiguous (rename_columns mapped d)); [done|].
  intros [Hne ->]%life_table_Ok.
  apply sorted_frame_Ok in Hs as [Hcount ->].
  pose proof (find_alternative_Some _ _ _ Hfa) as [_ Hacol].
  destruct (get_column_is_Some d a Hacol) as [ages Hages].
  exists a, ages, (sort_values (frame_rows (rename_columns mapped d))).
  split; [done|]. split; [done|].
  split; [apply sort_values_Permutation|].
  split; [apply sort_values_Sorted|].
  split; [|done].
  rewrite frame_rows_yas. rewrite rename_columns_relabel in *.
  rewrite (renamed_get_column (rename_label mapped) a "yaş"); try done.
  - by rewrite Hages.
  - by apply (rename_label_age d).
Qed.

(** ** Magnitudes *)

Lemma Qc_half (d : Qc) : d / 2 = d * Q2Qc (1 # 2).
Proof.
  apply Qc_is_canon. unfold Qcdiv, Qcinv, Qcmult, Qcplus, Q2Qc. simpl this.
  rewrite !Qred_correct. field.
Qed.

Lemma Qc_abs_person_years (l d A D : Qc) :
  - A ≤ l → l ≤ A → - D ≤ d → d ≤ D →
  - (A + D) ≤ l - d / 2 ∧ l - d / 2 ≤ A + D.
Proof. intros. rewrite Qc_half. split; qc_arith. Qed.

Lemma Qcabs_zero : Qcabs.Qcabs 0 = 0.
Proof. by apply Qcabs.Qcabs_pos. Qed.

Lemma magnitude_nonneg x : 0 ≤ magnitude x.
Proof. destruct x; simpl; [done..|apply Qcabs.Qcabs_nonneg]. Qed.

Lemma magnitude_not_finite x : is_finite x = false → magnitude (clean x) = 0.
Proof. destruct x; [intros _; apply Qcabs_zero..|done]. Qed.

Lemma magnitude_zero : magnitude fzero = 0.
Proof. apply Qcabs_zero. Qed.

Lemma magnitude_fadd x y : magnitude (fadd x y) ≤ magnitude x + magnitude y.
Proof.
  pose proof (magnitude_nonneg x) as Hx. pose proof (magnitude_nonneg y) as Hy.
  destruct x as [|s|a], y as [|t|b];
    try (by apply Qcplus_nonneg_nonneg).
  - simpl fadd. case_bool_decide; by apply Qcplus_nonneg_nonneg.
  - apply Qcabs.Qcabs_triangle.
Qed.

Lemma fdiv_two d : fdiv (Fin d) ftwo = Fin (d / 2).
Proof. done. Qed.

Lemma magnitude_cell_Lx r :
  magnitude (clean (cell_Lx r)) ≤ magnitude (lx r) + magnitude (dx r).
Proof.
  pose proof (magnitude_nonneg (lx r)) as Hl.
  pose proof (magnitude_nonneg (dx r)) as Hd.
  unfold cell_Lx.
  destruct (lx r) as [|s|l], (dx r) as [|t|d];
    try (rewrite magnitude_not_finite by done; by apply Qcplus_nonneg_nonneg).
  { rewrite magnitude_not_finite; [by apply Qcplus_nonneg_nonneg|].
    by destruct s, t. }
  rewrite fdiv_two. simpl.
  apply Qcabs.Qcabs_Qcle_condition.
  destruct (proj1 (Qcabs.Qcabs_Qcle_condition l _) (Qcle_refl _)).
  destruct (proj1 (Qcabs.Qcabs_Qcle_condition d _) (Qcle_refl _)).
  by apply Qc_abs_person_years.
Qed.

Lemma total_magnitude_nonneg df : 0 ≤ total_magnitude df.
Proof.
  induction df as [|r df IH]; simpl; [done|].
  apply Qcplus_nonneg_nonneg; [|done].
  apply Qcplus_nonneg_nonneg; apply magnitude_nonneg.
Qed.

Lemma total_magnitude_cons r df :
  total_magnitude (r :: df)
  = magnitude (lx r) + magnitude (dx r) + total_magnitude df.
Proof. done. Qed.

Lemma Qcle_plus_nonneg_r (a b c : Qc) : a ≤ c → 0 ≤ b → a ≤ b + c.
Proof. intros. qc_arith. Qed.

Lemma Qcle_plus_nonneg_l (a b c : Qc) : a ≤ b → 0 ≤ c → a ≤ b + c.
Proof. intros. qc_arith. Qed.

Lemma total_magnitude_drop i : ∀ df,
  total_magnitude (drop i df) ≤ total_magnitude df.
Proof.
  induction i as [|i IH]; intros df; [by rewrite drop_0|].
  destruct df as [|r df]; [done|]. rewrite total_magnitude_cons. simpl drop.
  apply Qcle_plus_nonneg_r; [apply IH|].
  apply Qcplus_nonneg_nonneg; apply magnitude_nonneg.
Qed.

Lemma total_magnitude_lookup df i r :
  df !! i = Some r →
  magnitude (lx r) + magnitude (dx r) ≤ total_magnitude df.
Proof.
  intros Hr. etrans; [|apply (total_magnitude_drop i)].
  rewrite (drop_S _ _ _ Hr), total_magnitude_cons.
  apply Qcle_plus_nonneg_l; [done|apply total_magnitude_nonneg].
Qed.

Lemma magnitude_fsum_Lx df :
  magnitude (fsum (clean <$> col_Lx df)) ≤ total_magnitude df.
Proof.
  induction df as [|r df IH].
  - change (magnitude fzero ≤ 0). by rewrite magnitude_zero.
  - unfold col_Lx in *. rewrite !fmap_cons, fsum_cons, total_magnitude_cons.
    etrans; [apply magnitude_fadd|].
    apply Qcplus_le_compat; [apply magnitude_cell_Lx|done].
Qed.

Lemma float_range_le_max : float_range ≤ float_max.
Proof. compute_done. Qed.

(** The output [Lx] and [Tx] of a row are bounded by the magnitudes of the
    table. *)
Lemma output_magnitudes df i o :
  Forall (λ r, is_inf (lx r) = false ∧ is_inf (dx r) = false) df →
  _add_life_table_functions df !! i = Some o →
  magnitude (Lx o) ≤ total_magnitude df ∧ magnitude (Tx o) ≤ total_magnitude df.
Proof.
  intros Hinf Ho.
  destruct (output_lookup_inv _ _ _ Ho) as (r & Hr & _).
  split.
  - assert (Lx o = clean (cell_Lx r)) as ->.
    { rewrite (add_life_table_functions_lookup _ _ r Hr) in Ho.
      by injection Ho as <-. }
    etrans; [apply magnitude_cell_Lx|]. by eapply total_magnitude_lookup.
  - rewrite (output_Tx df Hinf i r o Hr Ho).
    destruct (notna (lx r) && notna (dx r)).
    + rewrite fmap_drop, output_Lx. unfold col_Lx. rewrite <-!fmap_drop.
      etrans; [apply (magnitude_fsum_Lx (drop i df))|].
      apply total_magnitude_drop.
    + rewrite magnitude_zero. apply total_magnitude_nonneg.
Qed.

Lemma within_float_max df (q : Qc) :
  total_magnitude df ≤ float_range → q ≤ total_magnitude df → q ≤ float_max.
Proof.
  intros Hrange Hq. etrans; [exact Hq|]. etrans; [exact Hrange|].
  apply float_range_le_max.
Qed.

(** * The claims *)

(** C1.  [_complete_calculations] is the two-pass algorithm of the
    specification: on every frame with at least one row it returns what the
    radix rule, the forward pass with steps a, b, c in this order on each row
    (each step seeing the values set before it) and the second forward pass for
    [lx] compute, leaving every other cell as it was; and on the rows
    [{age:0, qx:0.01}], [{age:1, qx:0.02}] with radix 100000 the completed
    values are [lx = 100000, 99000] and [dx = 1000, 1980]. *)
Theorem completer_follows_two_pass_algorithm :
  (∀ r rest radix,
      _complete_calculations (r :: rest) radix
      = Ok (spec_complete (r :: rest) radix))
  ∧ _complete_calculations scenario_A 100000 = Ok scenario_A_completed.
Proof.
  split; [apply complete_calculations_spec|].
  unfold scenario_A. rewrite complete_calculations_spec. f_equal.
  compute_done.
Qed.

(** C2, as stated, fails: with a blank [qx] in the first row the first row's
    [Lx] and [Tx] are absent and become [0], while the second row has
    [Tx = 37.5], so [Tx[0]] is not [Lx[0] + Tx[1]]. *)
Lemma Tx_recurrence_fails_on_blank_qx :
  life_table blank_qx_table 100000 = Ok blank_qx_table_out
  ∧ ¬ reverse_cumsum blank_qx_table_out.
Proof.
  split; [compute_done|].
  intros H. specialize (H 0%nat _ eq_refl). simpl in H.
  revert H. compute_done.
Qed.

(** C2, amended.  For a completed table without infinite [lx] or [dx] whose
    magnitudes [|lx| + |dx|] add up to at most [float_range], so that no
    partial sum of [Lx] can leave the range of [float64]: the [Tx] of a row
    whose [lx] and [dx] are both present is the sum of the output [Lx] over
    that row and all later rows, the [Tx] of any other row is [0], and every
    [Lx] and [Tx] lies within [float_max]; when every row has [lx] and [dx],
    [Tx[last] = Lx[last]] and [Tx[i] = Lx[i] + Tx[i+1]]. *)
Theorem Tx_is_reverse_cumulative_sum (df : list Row) :
  Forall (λ r, is_inf (lx r) = false ∧ is_inf (dx r) = false) df →
  total_magnitude df ≤ float_range →
  (∀ i r o,
      df !! i = Some r → _add_life_table_functions df !! i = Some o →
      Tx o = (if notna (lx r) && notna (dx r)
              then fsum (Lx <$> drop i (_add_life_table_functions df))
              else fzero)
      ∧ magnitude (Lx o) ≤ float_max ∧ magnitude (Tx o) ≤ float_max)
  ∧ (Forall (λ r, isna (lx r) = false ∧ isna (dx r) = false) df →
     suffix_sum (_add_life_table_functions df)
     ∧ reverse_cumsum (_add_life_table_functions df)).
Proof.
  intros Hinf Hrange. split.
  { intros i r o Hr Ho. split; [by apply output_Tx|].
    destruct (output_magnitudes df i o Hinf Ho) as [HL HT].
    split; by eapply within_float_max. }
  intros Hna.
  assert (suffix_sum (_add_life_table_functions df)) as Hs.
  { intros i o Ho.
    destruct (df !! i) as [r|] eqn:Hr.
    - rewrite (output_Tx df Hinf i r o Hr Ho).
      destruct (proj1 (Forall_forall _ _) Hna r) as [Hl Hd];
        [by eapply list_elem_of_lookup_2|].
      unfold notna. by rewrite Hl, Hd.
    - apply lookup_ge_None in Hr. apply lookup_lt_Some in Ho.
      rewrite add_life_table_functions_length in Ho. lia. }
  split; [done|by apply suffix_sum_reverse_cumsum].
Qed.

Lemma Tx_is_reverse_cumulative_sum_witness :
  reverse_cumsum (_add_life_table_functions scenario_A_completed).
Proof.
  apply (Tx_is_reverse_cumulative_sum scenario_A_completed).
  - repeat constructor.
  - compute_done.
  - repeat constructor.
Defined.

(** C6, as stated, fails: a row with [lx = 100] and a blank [qx] is left as it
    is by the completion; the calculator turns its absent [qx] and [dx] into
    [0], and run again on that output it computes [px = 1] where the first run
    gave [px = 0]. *)
Lemma calculator_not_idempotent_on_blank_qx :
  _complete_calculations blank_qx_row 100000 = Ok blank_qx_row
  ∧ recalculate (_add_life_table_functions blank_qx_row)
    ≠ _add_life_table_functions blank_qx_row.
Proof. split; compute_done. Qed.

(** C6, amended.  On every table whose [lx], [qx] and [dx] cells are all
    present and finite, applying the calculator to its own output yields the
    same table as applying it once. *)
Theorem calculator_idempotent_on_full_tables (df : list Row) :
  Forall (λ r, is_finite (lx r) = true ∧ is_finite (qx r) = true
               ∧ is_finite (dx r) = true) df →
  recalculate (_add_life_table_functions df) = _add_life_table_functions df.
Proof.
  intros H. unfold recalculate. rewrite add_life_table_functions_base.
  by apply add_life_table_functions_clean_rows.
Qed.

Lemma calculator_idempotent_on_full_tables_witness :
  recalculate (_add_life_table_functions scenario_A_completed)
  = _add_life_table_functions scenario_A_completed.
Proof.
  apply (calculator_idempotent_on_full_tables scenario_A_completed).
  repeat constructor.
Defined.



(** C9.  The completion never overwrites a supplied value: a cell of [lx],
    [qx] or [dx] that is present in the input holds the same value in the
    completed table, at the same row and age, and a cell that is present and
    finite holds it in the table the calculator returns as well. *)
Theorem completer_keeps_supplied_values
    (df df' : list Row) (radix : Z) (i : nat) (r : Row) :
  _complete_calculations df radix = Ok df' →
  df !! i = Some r →
  ∃ r' o,
    df' !! i = Some r'
    ∧ _add_life_table_functions df' !! i = Some o
    ∧ keeps r r'
    ∧ (is_finite (lx r) = true → lx (base o) = lx r)
    ∧ (is_finite (qx r) = true → qx (base o) = qx r)
    ∧ (is_finite (dx r) = true → dx (base o) = dx r).
Proof.
  intros Hc Hr. apply complete_calculations_Ok in Hc as [_ ->].
  pose proof (spec_complete_keeps df radix) as Hk.
  destruct (Forall2_lookup_l _ _ _ _ _ Hk Hr) as (r' & Hr' & Hkeep).
  exists r'. eexists. split; [done|].
  split; [by apply add_life_table_functions_lookup|].
  split; [done|]. cbv zeta. unfold clean_life_row, clean_row. simpl.
  destruct Hkeep as (_ & Hl & Hq & Hd). unfold kept in *.
  repeat split; intros Hfin.
  - rewrite Hl by (by apply finite_notna). by apply clean_finite.
  - rewrite Hq by (by apply finite_notna). by apply clean_finite.
  - rewrite Hd by (by apply finite_notna). by apply clean_finite.
Qed.

Lemma completer_keeps_supplied_values_witness :
  ∃ r' o,
    scenario_A_completed !! 0%nat = Some r'
    ∧ _add_life_table_functions scenario_A_completed !! 0%nat = Some o
    ∧ keeps (mkRow (of_int 0) NaN (ratio 1 100) NaN) r'
    ∧ (is_finite NaN = true → lx (base o) = NaN)
    ∧ (is_finite (ratio 1 100) = true → qx (base o) = ratio 1 100)
    ∧ (is_finite NaN = true → dx (base o) = NaN).
Proof.
  apply (completer_keeps_supplied_values scenario_A scenario_A_completed
           100000 0 (mkRow (of_int 0) NaN (ratio 1 100) NaN)).
  - compute_done.
  - reflexivity.
Defined.

(** C4, as stated, fails: the frame that supplies [lx = 100] at age 0 and
    [lx = 200] at age 1 is accepted, and the output keeps both values. *)
Lemma supplied_lx_may_rise :
  (create_mortality_table (mkGenerator (Some rising_lx_frame) None) 100000).1
  = Ok rising_lx_out
  ∧ ¬ lx_non_increasing rising_lx_out.
Proof.
  split; [compute_done|].
  intros H. specialize (H 0%nat _ _ eq_refl eq_refl).
  revert H. compute_done.
Qed.

(** C4, amended.  For a non-negative radix and an input whose supplied [lx],
    [qx] and [dx] are finite and not negative: in the output, the [lx] of a
    row is at most the [lx] of the row before it whenever that row's [lx] was
    absent in the input (a supplied [lx] is kept as given); hence [lx] is
    non-increasing when no row after the first supplies [lx]. *)
Theorem lx_non_increasing_where_derived (df df' : list Row) (radix : Z) :
  (0 ≤ radix)%Z →
  Forall valid_row df →
  _complete_calculations df radix = Ok df' →
  (∀ i r o o',
      df !! S i = Some r → isna (lx r) = true →
      _add_life_table_functions df' !! i = Some o →
      _add_life_table_functions df' !! S i = Some o' →
      fle (lx (base o')) (lx (base o)))
  ∧ ((∀ i r, df !! S i = Some r → isna (lx r) = true) →
     lx_non_increasing (_add_life_table_functions df')).
Proof.
  intros Hz Hv Hc. apply complete_calculations_Ok in Hc as [_ ->].
  assert (∀ i r o o',
      df !! S i = Some r → isna (lx r) = true →
      _add_life_table_functions (spec_complete df radix) !! i = Some o →
      _add_life_table_functions (spec_complete df radix) !! S i = Some o' →
      fle (lx (base o')) (lx (base o))) as Hstep.
  { intros i r o o' Hr Hna Ho Ho'.
    apply output_lookup_inv in Ho as (p2 & Hp2 & ->).
    apply output_lookup_inv in Ho' as (r2 & Hr2 & ->).
    simpl. by eapply completed_lx_step. }
  split; [done|].
  intros Habsent i o o' Ho Ho'.
  destruct (df !! S i) as [r|] eqn:Hr.
  - eapply (Hstep i r); [done|by eapply Habsent|done..].
  - apply lookup_ge_None in Hr. apply lookup_lt_Some in Ho'.
    rewrite add_life_table_functions_length, spec_complete_length in Ho'. lia.
Qed.

Lemma lx_non_increasing_where_derived_witness :
  lx_non_increasing (_add_life_table_functions scenario_A_completed).
Proof.
  destruct (lx_non_increasing_where_derived scenario_A scenario_A_completed 100000)
    as [_ H].
  - lia.
  - repeat constructor.
  - compute_done.
  - apply H. intros [|[|i]] r; simpl; [|done..]. by intros [= <-].
Defined.

(** C5, as stated, fails: the frame that supplies [qx = 2] at age 0 and no
    [qx] at age 1 is accepted; its first output row has [qx = 2] and
    [px = -1], its second has [px = qx = 0]. *)
Lemma rates_may_leave_bounds :
  (create_mortality_table (mkGenerator (Some qx_two_frame) None) 100000).1
  = Ok qx_two_out
  ∧ ¬ (∀ o, o ∈ qx_two_out → in_bounds o ∧ complementary o).
Proof.
  split; [compute_done|].
  intros H. destruct (H (qx_two_out !!! 0%nat)) as [(_ & Hq & _) _].
  - apply list_elem_of_here.
  - revert Hq. compute_done.
Qed.

(** C5, amended.  For an input whose supplied [qx] values lie between 0 and 1
    and whose supplied [dx] values are not negative, every output row has
    [0 <= qx <= 1] and [0 <= px <= 1]; [px + qx = 1] holds in every row whose
    [qx] is present after completion, and a row whose [qx] stays absent has
    [px = qx = 0]. *)
Theorem rates_within_bounds
    (df df' : list Row) (radix : Z) (i : nat) (o : LifeRow) :
  Forall unit_row df →
  _complete_calculations df radix = Ok df' →
  _add_life_table_functions df' !! i = Some o →
  ∃ r', df' !! i = Some r'
        ∧ in_bounds o
        ∧ (if notna (qx r') then complementary o
           else px o = fzero ∧ qx (base o) = fzero).
Proof.
  intros Hu Hc Ho. apply complete_calculations_Ok in Hc as [_ ->].
  destruct (output_lookup_inv _ _ _ Ho) as (r' & Hr' & _).
  exists r'. split; [done|].
  rewrite (add_life_table_functions_lookup _ _ r' Hr') in Ho.
  injection Ho as <-. cbv zeta. apply output_rates.
  eapply (proj1 (Forall_forall _ _) (spec_complete_unit df radix Hu)).
  by eapply list_elem_of_lookup_2.
Qed.

Lemma rates_within_bounds_witness :
  ∃ r', scenario_A_completed !! 1%nat = Some r'
        ∧ in_bounds (_add_life_table_functions scenario_A_completed !!! 1%nat)
        ∧ (if notna (qx r')
           then complementary (_add_life_table_functions scenario_A_completed !!! 1%nat)
           else px (_add_life_table_functions scenario_A_completed !!! 1%nat) = fzero
                ∧ qx (base (_add_life_table_functions scenario_A_completed !!! 1%nat))
                  = fzero).
Proof.
  apply (rates_within_bounds scenario_A scenario_A_completed 100000 1).
  - repeat constructor.
  - compute_done.
  - reflexivity.
Defined.

(** C3.  Table generation fails with [MissingRequiredColumn] exactly when no
    column label is one of the age synonyms or none is one of the [qx]
    synonyms (the missing age column is reported first); the [lx] and [dx]
    columns are optional, and when none of their synonyms is a label the field
    is absent, not zero, in every row handed to the completion. *)
Theorem missing_required_column (d : Frame) :
  (∀ mt radix,
      ((∃ field, (create_mortality_table (mkGenerator (Some d) mt) radix).1
                 = Err (MissingRequiredColumn field))
       ↔ unmatched age_synonyms d ∨ unmatched qx_synonyms d)
      ∧ (unmatched age_synonyms d →
         (create_mortality_table (mkGenerator (Some d) mt) radix).1
         = Err (MissingRequiredColumn "yaş"))
      ∧ (¬ unmatched age_synonyms d → unmatched qx_synonyms d →
         (create_mortality_table (mkGenerator (Some d) mt) radix).1
         = Err (MissingRequiredColumn "qx")))
  ∧ (∀ d' df,
      validate_columns d = (Ok (), d') → sorted_frame d' = Ok df →
      (unmatched lx_synonyms d → Forall (λ r, lx r = NaN) df)
      ∧ (unmatched dx_synonyms d → Forall (λ r, dx r = NaN) df)).
Proof.
  split.
  - intros mt radix. rewrite create_mortality_table_result.
    destruct (unmatched_dec age_synonyms d) as [Ha|Ha].
    { rewrite (validate_columns_no_age d Ha). split; [|done].
      split; [by left|by eexists]. }
    destruct (unmatched_dec qx_synonyms d) as [Hq|Hq].
    { rewrite (validate_columns_no_qx d Ha Hq). split; [|done].
      split; [by right|by eexists]. }
    destruct (validate_columns_Ok d Ha Hq) as (a & mapped & _ & _ & _ & ->).
    split; [|done]. split; [|by intros [?|?]].
    intros [field Hf]. by apply validated_result_not_missing in Hf.
  - intros d' df Hv Hs. unfold validate_columns in Hv.
    destruct (map_columns column_mapping (columns d) []) as [mapped|e] eqn:Hm;
      [|done].
    injection Hv as <-. split; intros Hun.
    + apply (sorted_frame_Forall _ _ _ Hs), frame_rows_lx_absent, get_column_None.
      apply (canonical_label_absent d mapped "lx" lx_synonyms); try done.
      * compute_done.
      * compute_done.
    + apply (sorted_frame_Forall _ _ _ Hs), frame_rows_dx_absent, get_column_None.
      apply (canonical_label_absent d mapped "dx" dx_synonyms); try done.
      * compute_done.
      * compute_done.
Qed.

Lemma missing_required_column_witness :
  (create_mortality_table (mkGenerator (Some scenario_C) None) 100000).1
  = Err (MissingRequiredColumn "qx").
Proof.
  destruct (missing_required_column scenario_C) as [H _].
  destruct (H None 100000%Z) as (_ & _ & Hqx).
  apply Hqx.
  - intros Hun. apply (Hun "age"); compute_done.
  - apply unmatched_find. reflexivity.
Defined.

(** C8, as stated, fails: validation renames the matched columns of
    [self.data] in place, so the caller's frame with the label [age] carries
    the label [yaş] afterwards. *)
Lemma normalization_renames_input_labels :
  columns <$> data (mkGenerator (Some rising_lx_frame) None)
  = Some ["age"; "lx"; "qx"]
  ∧ columns <$> data (create_mortality_table
                        (mkGenerator (Some rising_lx_frame) None) 100000).2
    = Some ["yaş"; "lx"; "qx"]
  ∧ data (create_mortality_table
            (mkGenerator (Some rising_lx_frame) None) 100000).2
    ≠ Some rising_lx_frame.
Proof. repeat split; compute_done. Qed.

(** C8, amended.  Normalization changes nothing of the input frame but column
    labels: after [create_mortality_table], [self.data] has the same columns
    with the same values in the same order, each label either unchanged or
    replaced by the canonical name whose synonym it is; sorting, completion
    and derivation work on a copy; and when validation fails with
    [MissingRequiredColumn] the frame is unchanged altogether. *)
Theorem normalization_changes_labels_only
    (d : Frame) (mt : option (list LifeRow)) (radix : Z) :
  ∃ d',
    data (create_mortality_table (mkGenerator (Some d) mt) radix).2 = Some d'
    ∧ snd <$> d' = snd <$> d
    ∧ Forall2 (λ c c', c' = c ∨ ∃ alts, (c', alts) ∈ column_mapping ∧ c ∈ alts)
              (columns d) (columns d')
    ∧ ((∃ field, (create_mortality_table (mkGenerator (Some d) mt) radix).1
                 = Err (MissingRequiredColumn field)) → d' = d).
Proof.
  exists (validate_columns d).2.
  split; [apply create_mortality_table_data|].
  destruct (validate_columns_labels d) as [Hv Hl].
  split; [done|]. split; [done|].
  intros [field Hf]. rewrite create_mortality_table_result in Hf.
  destruct (validate_columns d) as [[u|e] d'] eqn:E.
  - by apply validated_result_not_missing in Hf.
  - pose proof (validate_columns_Err d e) as H. rewrite E in H. by apply H.
Qed.

Lemma normalization_changes_labels_only_witness :
  ∃ d',
    data (create_mortality_table (mkGenerator (Some scenario_C) None) 100000).2
    = Some d'
    ∧ snd <$> d' = snd <$> scenario_C
    ∧ Forall2 (λ c c', c' = c ∨ ∃ alts, (c', alts) ∈ column_mapping ∧ c ∈ alts)
              (columns scenario_C) (columns d')
    ∧ d' = scenario_C.
Proof.
  destruct (normalization_changes_labels_only scenario_C None 100000)
    as (d' & Hd & Hv & Hl & Hsame).
  exists d'. repeat split; [done..|].
  apply Hsame. exists "qx". reflexivity.
Defined.

(** C10, as stated, fails: a row with a blank age is accepted and comes out
    with age [0], so the ages of the output are not those of the input. *)
Lemma blank_age_becomes_zero :
  get_column blank_age_frame "age" = Some [NaN]
  ∧ (create_mortality_table (mkGenerator (Some blank_age_frame) None) 100000).1
    = Ok blank_age_out
  ∧ (yas ∘ base) <$> blank_age_out = [fzero]
  ∧ ¬ ((yas ∘ base) <$> blank_age_out ≡ₚ [NaN]).
Proof.
  split; [done|]. split; [compute_done|]. split; [done|].
  intros H. assert (NaN ∈ (yas ∘ base) <$> blank_age_out) as Hin
    by (rewrite H; left).
  revert Hin. compute_done.
Qed.

(** C10, amended.  For every accepted input the output has exactly as many
    rows as the input, and the ages of the output are, as a multiset, the ages
    of the input with every absent or infinite age replaced by [0]; when all
    input ages are finite the two multisets are equal and the output ages are
    in ascending order. *)
Theorem rows_preserved
    (d : Frame) (mt : option (list LifeRow)) (radix : Z) (out : list LifeRow) :
  (create_mortality_table (mkGenerator (Some d) mt) radix).1 = Ok out →
  ∃ a ages,
    find_alternative age_synonyms (columns d) = Some a
    ∧ get_column d a = Some ages
    ∧ length out = length ages
    ∧ (yas ∘ base) <$> out ≡ₚ clean <$> ages
    ∧ (Forall (λ x, is_finite x = true) ages →
       (yas ∘ base) <$> out ≡ₚ ages
       ∧ ∀ i o o', out !! i = Some o → out !! S i = Some o' →
           fle (yas (base o)) (yas (base o'))).
Proof.
  intros (a & ages & df & Ha & Hages & Hperm & Hsorted & Hyas & _ & ->)
    %create_mortality_table_Ok.
  exists a, ages. split; [done|]. split; [done|].
  assert ((yas ∘ base) <$> _add_life_table_functions (spec_complete df radix)
          = clean <$> (yas <$> df)) as Hout.
  { rewrite output_ages. f_equal. apply Forall2_keeps_yas, spec_complete_keeps. }
  assert (yas <$> df ≡ₚ ages) as Hdf by (by rewrite Hperm, Hyas).
  split.
  { rewrite add_life_table_functions_length, spec_complete_length.
    rewrite <-(length_fmap yas df). by apply Permutation_length. }
  split; [by rewrite Hout, Hdf|].
  intros Hfin.
  assert (Forall (λ x, is_finite x = true) (yas <$> df)) as Hfin'
    by (by rewrite Hdf).
  split; [by rewrite Hout, clean_finite_list|].
  intros i o o' Ho Ho'.
  apply output_lookup_inv in Ho as (r & Hr & ->).
  apply output_lookup_inv in Ho' as (r' & Hr' & ->).
  pose proof (spec_complete_keeps df radix) as Hk.
  destruct (Forall2_lookup_r _ _ _ _ _ Hk Hr) as (r0 & Hr0 & (Hy & _)).
  destruct (Forall2_lookup_r _ _ _ _ _ Hk Hr') as (r0' & Hr0' & (Hy' & _)).
  simpl. rewrite Hy, Hy'.
  assert (is_finite (yas r0) = true) as Hf0.
  { apply (proj1 (Forall_forall _ _) Hfin'), list_elem_of_fmap_2.
    by eapply list_elem_of_lookup_2. }
  assert (is_finite (yas r0') = true) as Hf0'.
  { apply (proj1 (Forall_forall _ _) Hfin'), list_elem_of_fmap_2.
    by eapply list_elem_of_lookup_2. }
  rewrite !clean_finite by done.
  apply yas_le_finite; [done..|].
  by eapply (Sorted_lookup_adjacent yas_le df i).
Qed.

Lemma rows_preserved_witness :
  ∃ a ages,
    find_alternative age_synonyms (columns rising_lx_frame) = Some a
    ∧ get_column rising_lx_frame a = Some ages
    ∧ length rising_lx_out = length ages
    ∧ (yas ∘ base) <$> rising_lx_out ≡ₚ clean <$> ages
    ∧ (Forall (λ x, is_finite x = true) ages →
       (yas ∘ base) <$> rising_lx_out ≡ₚ ages
       ∧ ∀ i o o', rising_lx_out !! i = Some o → rising_lx_out !! S i = Some o' →
           fle (yas (base o)) (yas (base o'))).
Proof.
  apply (rows_preserved rising_lx_frame None 100000 rising_lx_out).
  compute_done.
Defined.

(** * Further properties of the program *)

(** ** The inner loop of [validate_columns] *)

Lemma find_alternative_first alternatives cols a :
  find_alternative alternatives cols = Some a ↔
  ∃ before after,
    alternatives = before ++ a :: after
    ∧ a ∈ cols ∧ ∀ s, s ∈ before → s ∉ cols.
Proof.
  induction alternatives as [|alt rest IH]; simpl.
  - split; [done|]. intros (before & after & H & _). by destruct before.
  - case_bool_decide as Hin.
    + split.
      * intros [= <-]. exists [], rest. split; [done|]. split; [done|].
        intros s Hs. by apply not_elem_of_nil in Hs.
      * intros (before & after & Heq & Ha & Hbefore).
        destruct before as [|b before]; simpl in Heq.
        -- by injection Heq as ->.
        -- injection Heq as <- _. destruct (Hbefore alt); [left|done].
    + rewrite IH. split.
      * intros (before & after & -> & Ha & Hbefore).
        exists (alt :: before), after. split; [done|]. split; [done|].
        intros s [->|Hs]%elem_of_cons; [done|by apply Hbefore].
      * intros (before & after & Heq & Ha & Hbefore).
        destruct before as [|b before]; simpl in Heq.
        -- injection Heq as -> _. done.
        -- injection Heq as <- ->. exists before, after.
           split; [done|]. split; [done|].
           intros s Hs. apply Hbefore. by right.
Qed.

(** ** The validated frame *)

Lemma rename_label_matched d mapped k a :
  map_columns column_mapping (columns d) [] = Ok mapped →
  (k, a) ∈ mapped →
  rename_label mapped a = k.
Proof.
  intros Hm Hin. unfold rename_label.
  destruct (rename_dict_get_is_Some _ _ _ Hin) as [k' Hk]. rewrite Hk. simpl.
  apply rename_dict_get_Some in Hk.
  destruct (map_columns_entries _ _ _ _ Hm _ _ Hk)
    as [[]%not_elem_of_nil|(alts' & Halts' & Hf')].
  destruct (map_columns_entries _ _ _ _ Hm _ _ Hin)
    as [[]%not_elem_of_nil|(alts & Halts & Hf)].
  apply find_alternative_Some in Hf as [Hc _].
  apply find_alternative_Some in Hf' as [Hc' _].
  by apply (synonyms_disjoint k' alts' k alts a).
Qed.

(** Every alternative that was found has an entry in [mapped_columns]. *)
Lemma map_columns_complete mapping cols : ∀ acc res,
  map_columns mapping cols acc = Ok res →
  (∀ k v, (k, v) ∈ acc → (k, v) ∈ res)
  ∧ ∀ k alts a, (k, alts) ∈ mapping → NoDup mapping.*1 →
      find_alternative alts cols = Some a → (k, a) ∈ res.
Proof.
  induction mapping as [|[standard_col alternatives] rest IH];
    intros acc res; simpl.
  - intros [= <-]. split; [done|]. intros k alts a Hin. by apply not_elem_of_nil in Hin.
  - destruct (find_alternative alternatives cols) as [alt|] eqn:Hf.
    + intros Hres. destruct (IH _ _ Hres) as [Hacc Hfound]. split.
      * intros k v Hkv. apply Hacc, elem_of_app. by left.
      * intros k alts a [[= -> ->]|Hin]%elem_of_cons Hnd Ha.
        -- rewrite Hf in Ha. injection Ha as ->.
           apply Hacc, elem_of_app. right. left.
        -- apply NoDup_cons in Hnd as [_ Hnd]. by eapply Hfound.
    + repeat case_bool_decide; try done.
      intros Hres. destruct (IH _ _ Hres) as [Hacc Hfound]. split; [done|].
      intros k alts a [[= -> ->]|Hin]%elem_of_cons Hnd Ha.
      * by rewrite Hf in Ha.
      * apply NoDup_cons in Hnd as [_ Hnd]. by eapply Hfound.
Qed.

Lemma column_mapping_NoDup : NoDup column_mapping.*1.
Proof. compute_done. Qed.

Lemma canonical_is_synonym k alts :
  (k, alts) ∈ column_mapping → k ∈ alts.
Proof.
  unfold column_mapping. rewrite !elem_of_cons, elem_of_nil.
  intros [H|[H|[H|[H|[]]]]]; injection H as -> ->; compute_done.
Qed.

(** After a successful validation the canonical label of a column is a label
    of the frame exactly when one of its synonyms was a label before. *)
Lemma validated_label d mapped k alts :
  map_columns column_mapping (columns d) [] = Ok mapped →
  (k, alts) ∈ column_mapping →
  k ∈ columns (rename_columns mapped d) ↔ ¬ unmatched alts d.
Proof.
  intros Hm Hk. split.
  - intros Hin Hun.
    by apply (canonical_label_absent d mapped k alts Hm Hk
                (canonical_is_synonym k alts Hk) Hun).
  - rewrite unmatched_find. intros Hf.
    destruct (find_alternative alts (columns d)) as [a|] eqn:Ha; [|done].
    destruct (map_columns_complete _ _ _ _ Hm) as [_ Hfound].
    pose proof (Hfound k alts a Hk column_mapping_NoDup Ha) as Hin.
    rewrite columns_rename. apply list_elem_of_fmap.
    exists a. split; [by rewrite (rename_label_matched d mapped k a)|].
    by apply find_alternative_Some in Ha as [_ ?].
Qed.

Lemma validate_columns_Ok_inv d d' :
  validate_columns d = (Ok (), d') →
  ∃ mapped, map_columns column_mapping (columns d) [] = Ok mapped
            ∧ d' = rename_columns mapped d
            ∧ ¬ unmatched age_synonyms d ∧ ¬ unmatched qx_synonyms d.
Proof.
  intros Hv.
  destruct (unmatched_dec age_synonyms d) as [Ha|Ha];
    [by rewrite (validate_columns_no_age d Ha) in Hv|].
  destruct (unmatched_dec qx_synonyms d) as [Hq|Hq];
    [by rewrite (validate_columns_no_qx d Ha Hq) in Hv|].
  destruct (validate_columns_Ok d Ha Hq) as (a & mapped & _ & Hm & _ & Hv').
  rewrite Hv' in Hv. injection Hv as <-. by exists mapped.
Qed.

Lemma canonical_is_first k alts :
  (k, alts) ∈ column_mapping → k ≠ "yaş" → ∃ rest, alts = k :: rest.
Proof.
  unfold column_mapping. rewrite !elem_of_cons, elem_of_nil.
  intros [H|[H|[H|[H|[]]]]]; injection H as -> ->; [done|by eexists..].
Qed.

Lemma column_mapping_functional k alts alts' :
  (k, alts) ∈ column_mapping → (k, alts') ∈ column_mapping → alts = alts'.
Proof.
  unfold column_mapping. rewrite !elem_of_cons, !elem_of_nil.
  intros H1 H2.
  destruct H1 as [H1|[H1|[H1|[H1|[]]]]];
    destruct H2 as [H2|[H2|[H2|[H2|[]]]]]; by simplify_eq.
Qed.

(** For [lx], [qx] and [dx], whose canonical name is tried first, the labels
    renamed to the canonical name are exactly the matched alternative. *)
Lemma rename_label_canonical_iff d mapped k alts a c :
  map_columns column_mapping (columns d) [] = Ok mapped →
  (k, alts) ∈ column_mapping → k ≠ "yaş" →
  find_alternative alts (columns d) = Some a →
  c ∈ columns d →
  rename_label mapped c = k ↔ c = a.
Proof.
  intros Hm Hk Hne Ha Hc.
  destruct (map_columns_complete _ _ _ _ Hm) as [_ Hfound].
  pose proof (Hfound k alts a Hk column_mapping_NoDup Ha) as Hin.
  split; [|intros ->; by apply (rename_label_matched d)].
  unfold rename_label.
  destruct (rename_dict_get mapped c) as [k'|] eqn:Hget; simpl.
  - intros ->. apply rename_dict_get_Some in Hget.
    destruct (map_columns_entries _ _ _ _ Hm _ _ Hget)
      as [[]%not_elem_of_nil|(alts' & Hk' & Hf')].
    rewrite (column_mapping_functional _ _ _ Hk' Hk) in Hf'. congruence.
  - intros ->. destruct (canonical_is_first k alts Hk Hne) as [rest ->].
    simpl in Ha. rewrite bool_decide_eq_true_2 in Ha by done. congruence.
Qed.

Lemma get_column_relabel (rn : string → string) (a k : string) (d : Frame) :
  (∀ c, c ∈ columns d → rn c = k ↔ c = a) →
  get_column ((λ p, (rn p.1, p.2)) <$> d) k = get_column d a.
Proof.
  unfold get_column, columns.
  induction d as [|[c v] d IH]; [done|].
  rewrite !fmap_cons,
    (filter_cons (λ p : string * list float64, p.1 = k)),
    (filter_cons (λ p : string * list float64, p.1 = a)).
  intros Hiff.
  assert (rn c = k ↔ c = a) as Hc by (apply Hiff; left).
  assert (∀ c', c' ∈ d.*1 → rn c' = k ↔ c' = a) as Hrest
    by (intros c' Hc'; apply Hiff; by right).
  simpl. destruct (decide (c = a)) as [->|Hne].
  - rewrite decide_True by (by apply Hc). done.
  - rewrite decide_False by (by rewrite Hc). by apply IH.
Qed.

(** The canonical column of the validated frame is the first input column
    labelled with the alternative that was found. *)
Lemma validated_get_column d mapped k alts a :
  map_columns column_mapping (columns d) [] = Ok mapped →
  (k, alts) ∈ column_mapping →
  find_alternative alts (columns d) = Some a →
  (k = "yaş" → (count_label (rename_columns mapped d) "yaş" ≤ 1)%nat) →
  get_column (rename_columns mapped d) k = get_column d a.
Proof.
  intros Hm Hk Ha Hcount. rewrite rename_columns_relabel in *.
  destruct (decide (k = "yaş")) as [->|Hne].
  - destruct (map_columns_complete _ _ _ _ Hm) as [_ Hfound].
    pose proof (Hfound _ _ _ Hk column_mapping_NoDup Ha) as Hin.
    apply (renamed_get_column (rename_label mapped) a "yaş").
    + by apply (rename_label_matched d).
    + by apply find_alternative_Some in Ha as [_ ?].
    + by apply Hcount.
  - apply get_column_relabel. intros c Hc.
    by apply (rename_label_canonical_iff d mapped k alts a c).
Qed.

(** ** The outcomes of [create_mortality_table] *)



Lemma output_nonempty df radix :
  df ≠ [] → _add_life_table_functions (spec_complete df radix) ≠ [].
Proof.
  intros Hne Hnil. apply (f_equal length) in Hnil.
  rewrite add_life_table_functions_length, spec_complete_length in Hnil.
  by destruct df.
Qed.


(** ** Rows of the completed table, seen through the two passes *)

Lemma spec_step_a_cells prev r :
  yas (spec_step_a prev r) = yas r
  ∧ qx (spec_step_a prev r) = qx r ∧ dx (spec_step_a prev r) = dx r.
Proof. unfold spec_step_a. destruct prev; [|done]. by case_match. Qed.

Lemma spec_fill_lx_cells prev r :
  qx (spec_fill_lx prev r) = qx r ∧ dx (spec_fill_lx prev r) = dx r
  ∧ (isna (lx r) = false → lx (spec_fill_lx prev r) = lx r).
Proof.
  split; [apply qx_spec_fill_lx|]. split; [|apply spec_fill_lx_present].
  unfold spec_fill_lx. destruct prev; [|done]. by case_match.
Qed.

Lemma spec_pass1_lookup_0 rows prev r :
  rows !! 0%nat = Some r → spec_pass1 prev rows !! 0%nat = Some (spec_row prev r).
Proof. destruct rows; simpl; [done|]. by intros [= ->]. Qed.

Lemma spec_pass2_lookup_0 rows r :
  rows !! 0%nat = Some r → spec_pass2 None rows !! 0%nat = Some r.
Proof. destruct rows; simpl; [done|]. by intros [= ->]. Qed.

(** The first row of the completed table. *)
Lemma spec_complete_lookup_0 df radix r :
  df !! 0%nat = Some r →
  spec_complete df radix !! 0%nat
  = Some (spec_row None (if isna (lx r) then set_lx (of_int radix) r else r)).
Proof.
  intros Hr. unfold spec_complete.
  apply spec_pass2_lookup_0, spec_pass1_lookup_0.
  destruct df; simpl in *; [done|]. by injection Hr as ->.
Qed.

(** A later row of the completed table, and the row before it. *)
Lemma spec_complete_lookup_S df radix j r p' r' :
  df !! S j = Some r →
  spec_complete df radix !! j = Some p' →
  spec_complete df radix !! S j = Some r' →
  ∃ prev' p1,
    p' = spec_fill_lx prev' p1
    ∧ r' = spec_fill_lx (Some p') (spec_row (Some p1) r).
Proof.
  unfold spec_complete. intros Hr Hp' Hr'.
  apply spec_pass2_lookup_S in Hr' as (p2 & r1 & Hp2 & Hr1 & ->).
  rewrite Hp' in Hp2. injection Hp2 as <-.
  apply spec_pass1_lookup_S in Hr1 as (p1 & r0 & Hp1 & Hr0 & ->).
  rewrite spec_radix_lookup_S, Hr in Hr0. injection Hr0 as <-.
  destruct (spec_pass2_lookup _ _ _ _ Hp') as (prev' & p1' & Hp1' & ->).
  rewrite Hp1 in Hp1'. injection Hp1' as <-.
  by exists prev', p1.
Qed.

(** ** The cells the completion fills *)

Lemma spec_row_dx_filled prev r :
  isna (dx r) = true → isna (dx (spec_row prev r)) = false →
  isna (lx (spec_row prev r)) = false
  ∧ dx (spec_row prev r) = fmul (lx (spec_row prev r)) (qx (spec_row prev r)).
Proof.
  unfold spec_row. destruct (spec_step_a_cells prev r) as (_ & _ & Hd).
  set (ra := spec_step_a prev r) in *. clearbody ra. intros Hna. rewrite <-Hd in Hna.
  unfold spec_step_b. destruct (isna (dx ra) && (notna (qx ra) && notna (lx ra))) eqn:Eb.
  - apply andb_prop in Eb as [_ [Hq%negb_true_iff Hl%negb_true_iff]%andb_prop].
    unfold spec_step_c. simpl. rewrite Hq. simpl. done.
  - unfold spec_step_c. case_match; simpl; by rewrite Hna.
Qed.

Lemma spec_row_qx_filled prev r :
  isna (qx r) = true → isna (qx (spec_row prev r)) = false →
  isna (lx (spec_row prev r)) = false
  ∧ qx (spec_row prev r)
    = (if fgtb (lx (spec_row prev r)) fzero
       then py_min1 (fdiv (dx (spec_row prev r)) (lx (spec_row prev r)))
       else fzero).
Proof.
  unfold spec_row. destruct (spec_step_a_cells prev r) as (_ & Hq & _).
  set (ra := spec_step_a prev r) in *. clearbody ra. intros Hna. rewrite <-Hq in Hna.
  unfold spec_step_b, notna. rewrite Hna. simpl. rewrite andb_false_r.
  unfold spec_step_c, notna. rewrite Hna. simpl.
  destruct (negb (isna (dx ra)) && negb (isna (lx ra))) eqn:Ec; simpl;
    [|by rewrite Hna].
  apply andb_prop in Ec as [_ Hl%negb_true_iff]. done.
Qed.

Lemma py_max0_nonneg x : fle fzero (py_max0 x).
Proof.
  unfold py_max0, fgtb, fzero. destruct x as [|s|q]; simpl; [done| |].
  - by destruct s.
  - case_bool_decide as H; simpl; [by apply Qclt_le_weak|done].
Qed.

Lemma py_min1_le_one x : fle (py_min1 x) fone.
Proof.
  unfold py_min1, fone. destruct x as [|s|q]; simpl; [done| |].
  - by destruct s.
  - case_bool_decide as H; simpl; [by apply Qclt_le_weak|done].
Qed.

(** An [lx] filled in a row after the first: from the completed row before
    it, by one of the two recurrences. *)
Lemma filled_lx_recurrence prev' p1 r :
  let p' := spec_fill_lx prev' p1 in
  let r' := spec_fill_lx (Some p') (spec_row (Some p1) r) in
  isna (lx r) = true → isna (lx r') = false →
  lx r' = py_max0 (fsub (lx p') (dx p'))
  ∨ lx r' = py_max0 (fmul (lx p') (fsub fone (qx p'))).
Proof.
  intros p' r' Hna Hpresent. subst p' r'.
  destruct (spec_fill_lx_cells prev' p1) as (Hq & Hd & Hl).
  set (p' := spec_fill_lx prev' p1) in *. clearbody p'.
  destruct (isna (lx (spec_row (Some p1) r))) eqn:E1.
  - right. unfold spec_fill_lx in *. rewrite E1 in *. simpl in *.
    destruct (notna (lx p') && notna (qx p')); [done|].
    by rewrite E1 in Hpresent.
  - left. rewrite spec_fill_lx_present by done.
    rewrite lx_spec_row in *. unfold spec_step_a in *. rewrite Hna in *.
    simpl in *. destruct (notna (lx p1) && notna (dx p1)) eqn:Ea;
      [|by rewrite Hna in E1].
    apply andb_prop in Ea as [Hl1%negb_true_iff _]. simpl.
    by rewrite Hl, Hd.
Qed.

Lemma spec_complete_lookup_is_Some df radix i r :
  df !! i = Some r → is_Some (spec_complete df radix !! i).
Proof.
  intros Hr. apply lookup_lt_is_Some. rewrite spec_complete_length.
  by eapply lookup_lt_Some.
Qed.

(** Every row of the completed table is a fill of the second pass applied to
    the first-pass result of the input row (with the radix in the first row). *)
Lemma completed_row_view df radix i r r' :
  df !! i = Some r → spec_complete df radix !! i = Some r' →
  ∃ prev2 prev1 r0,
    r' = spec_fill_lx prev2 (spec_row prev1 r0)
    ∧ qx r0 = qx r ∧ dx r0 = dx r.
Proof.
  intros Hr Hr'. destruct i as [|j].
  - rewrite (spec_complete_lookup_0 _ _ _ Hr) in Hr'. injection Hr' as <-.
    exists None, None, (if isna (lx r) then set_lx (of_int radix) r else r).
    split; [done|]. by destruct (isna (lx r)).
  - assert (is_Some (df !! j)) as [p Hp].
    { apply lookup_lt_is_Some. apply lookup_lt_Some in Hr. lia. }
    destruct (spec_complete_lookup_is_Some df radix j p Hp) as [p' Hp'].
    destruct (spec_complete_lookup_S _ _ _ _ _ _ Hr Hp' Hr')
      as (prev' & p1 & -> & ->).
    by exists (Some (spec_fill_lx prev' p1)), (Some p1), r.
Qed.

(** ** Tables without infinite cells *)

Lemma cell_Fin x : is_inf x = false → isna x = false → ∃ q, x = Fin q.
Proof. destruct x; try done. by eexists. Qed.

Lemma py_max0_present x : isna (py_max0 x) = false.
Proof. unfold py_max0. case_match eqn:E; [|done]. by destruct x. Qed.

Lemma py_min1_present x : isna (py_min1 x) = false.
Proof. unfold py_min1. case_match eqn:E; [|done]. by destruct x. Qed.

Lemma py_max0_no_inf x : is_inf x = false → is_inf (py_max0 x) = false.
Proof. unfold py_max0. by case_match. Qed.

Lemma py_min1_no_inf x : is_inf x = false → is_inf (py_min1 x) = false.
Proof. unfold py_min1. by case_match. Qed.

Lemma fsub_no_inf x y :
  is_inf x = false → is_inf y = false → is_inf (fsub x y) = false.
Proof. by destruct x, y. Qed.

Lemma fmul_no_inf x y :
  is_inf x = false → is_inf y = false → is_inf (fmul x y) = false.
Proof. by destruct x, y. Qed.

Lemma fmul_present x y :
  is_inf x = false → is_inf y = false → isna x = false → isna y = false →
  isna (fmul x y) = false.
Proof. by destruct x, y. Qed.

Lemma fdiv_no_inf x y :
  is_inf x = false → is_inf y = false → fgtb y fzero = true →
  is_inf (fdiv x y) = false.
Proof.
  unfold fgtb, fzero. destruct x as [|s|a], y as [|t|b]; simpl; try done.
  intros _ _ Hb%bool_decide_eq_true_1.
  by rewrite bool_decide_eq_false_2 by (by apply Qclt_not_eq, not_eq_sym in Hb).
Qed.

Lemma settled_no_inf r : settled_row r → no_inf_row r.
Proof. by intros [? _]. Qed.

(** The first-pass result of a row. *)
Lemma spec_row_settled prev r :
  from_option no_inf_row True prev → no_inf_row r →
  settled_row (spec_row prev r)
  ∧ (isna (lx (spec_row prev r)) = true →
     isna (lx r) = true
     ∧ from_option (λ p, notna (lx p) && notna (dx p) = false) True prev).
Proof.
  intros Hprev (Hl & Hq & Hd). unfold spec_row.
  (* step a *)
  assert (no_inf_row (spec_step_a prev r)
          ∧ (isna (lx (spec_step_a prev r)) = true →
             isna (lx r) = true
             ∧ from_option (λ p, notna (lx p) && notna (dx p) = false) True prev))
    as [(Hla & Hqa & Hda) Hstay].
  { unfold spec_step_a. destruct prev as [p|]; [|by split; [|intros ?]].
    destruct Hprev as (Hpl & _ & Hpd). simpl.
    destruct (isna (lx r)) eqn:El; simpl;
      [|split; [done|intros Hx; by rewrite El in Hx]].
    destruct (notna (lx p) && notna (dx p)) eqn:Ep; [|by split; [|intros ?]].
    split.
    - split; [|done]. simpl. by apply py_max0_no_inf, fsub_no_inf.
    - simpl. by rewrite py_max0_present. }
  set (ra := spec_step_a prev r) in *. clearbody ra.
  (* step b *)
  unfold spec_step_b.
  destruct (isna (dx ra) && (notna (qx ra) && notna (lx ra))) eqn:Eb.
  - apply andb_prop in Eb as [_ [Hq'%negb_true_iff Hl'%negb_true_iff]%andb_prop].
    unfold spec_step_c. simpl. rewrite Hq'. simpl.
    split; [|by rewrite Hl'].
    repeat split; simpl; try done.
    + by apply fmul_no_inf.
    + intros _ _. by apply fmul_present.
  - unfold spec_step_c.
    destruct (isna (qx ra) && (notna (dx ra) && notna (lx ra))) eqn:Ec.
    + apply andb_prop in Ec as [_ [Hd'%negb_true_iff Hl'%negb_true_iff]%andb_prop].
      split; [|simpl; by rewrite Hl'].
      repeat split; simpl; try done.
      * case_match; [|done]. by apply py_min1_no_inf, fdiv_no_inf.
      * intros _ _. case_match; [apply py_min1_present|done].
    + split; [|done]. repeat split; try done.
      * intros Hl' Hq'. unfold notna in Eb. rewrite Hl', Hq' in Eb.
        simpl in Eb. by rewrite andb_true_r in Eb.
      * intros Hl' Hd'. unfold notna in Ec. rewrite Hl', Hd' in Ec.
        simpl in Ec. by rewrite andb_true_r in Ec.
Qed.

(** A settled row is left alone by the first loop body, whatever row precedes
    it, provided the rule for [lx] does not apply. *)
Lemma spec_row_fixed prev r :
  settled_row r →
  (isna (lx r) = true →
   from_option (λ p, notna (lx p) && notna (dx p) = false) True prev) →
  spec_row prev r = r.
Proof.
  intros (_ & Hqd & Hdq) Hlx. unfold spec_row.
  assert (spec_step_a prev r = r) as ->.
  { unfold spec_step_a. destruct prev as [p|]; [|done].
    destruct (isna (lx r)) eqn:El; simpl; [|done].
    simpl in Hlx. by rewrite Hlx. }
  assert (spec_step_b r = r) as ->.
  { unfold spec_step_b, notna.
    destruct (isna (dx r)) eqn:Ed; simpl; [|done].
    destruct (isna (qx r)) eqn:Eq; simpl; [done|].
    destruct (isna (lx r)) eqn:El; simpl; [done|].
    by specialize (Hqd eq_refl eq_refl). }
  unfold spec_step_c, notna.
  destruct (isna (qx r)) eqn:Eq; simpl; [|done].
  destruct (isna (dx r)) eqn:Ed; simpl; [done|].
  destruct (isna (lx r)) eqn:El; simpl; [done|].
  by specialize (Hdq eq_refl eq_refl).
Qed.

Lemma spec_row_idem prev r :
  from_option no_inf_row True prev → no_inf_row r →
  spec_row prev (spec_row prev r) = spec_row prev r.
Proof.
  intros Hprev Hr. destruct (spec_row_settled prev r Hprev Hr) as [Hs Hlx].
  apply spec_row_fixed; [done|]. intros Hna. by apply Hlx.
Qed.

(** The second loop finds nothing to fill after a settled row. *)
Lemma fill_after_row p r :
  settled_row p →
  spec_fill_lx (Some p) (spec_row (Some p) r) = spec_row (Some p) r.
Proof.
  intros ((Hpl & Hpq & Hpd) & Hqd & _). unfold spec_fill_lx.
  destruct (isna (lx (spec_row (Some p) r))) eqn:El; simpl; [|done].
  unfold notna.
  destruct (isna (lx p)) eqn:Elp; simpl; [done|].
  destruct (isna (qx p)) eqn:Eqp; simpl; [done|].
  exfalso. rewrite lx_spec_row in El. unfold spec_step_a, notna in El.
  rewrite Elp, (Hqd eq_refl eq_refl) in El. simpl in El.
  destruct (isna (lx r)) eqn:Elr; simpl in El.
  - by rewrite py_max0_present in El.
  - by rewrite Elr in El.
Qed.

Lemma spec_pass2_after_pass1 rows : ∀ prev,
  from_option settled_row True prev → Forall no_inf_row rows →
  spec_pass2 prev (spec_pass1 prev rows) = spec_pass1 prev rows.
Proof.
  induction rows as [|r rows IH]; intros prev Hprev Hrows; simpl; [done|].
  inversion Hrows as [|?? Hr Hrest]; subst.
  assert (from_option no_inf_row True prev) as Hprev'
    by (destruct prev; [by apply settled_no_inf|done]).
  assert (spec_fill_lx prev (spec_row prev r) = spec_row prev r) as ->.
  { destruct prev as [p|]; [by apply fill_after_row|done]. }
  f_equal. apply IH; [|done]. simpl. by apply spec_row_settled.
Qed.

Lemma spec_pass1_idem rows : ∀ prev,
  from_option no_inf_row True prev → Forall no_inf_row rows →
  spec_pass1 prev (spec_pass1 prev rows) = spec_pass1 prev rows.
Proof.
  induction rows as [|r rows IH]; intros prev Hprev Hrows; simpl; [done|].
  inversion Hrows as [|?? Hr Hrest]; subst.
  rewrite spec_row_idem by done. f_equal. apply IH; [|done].
  simpl. by apply settled_no_inf, spec_row_settled.
Qed.

Lemma spec_radix_no_inf radix rows :
  Forall no_inf_row rows → Forall no_inf_row (spec_radix radix rows).
Proof.
  intros Hrows. destruct rows as [|r rows]; simpl; [done|].
  inversion Hrows as [|?? (Hl & Hq & Hd) ?]; subst. constructor; [|done].
  by case_match.
Qed.

Lemma first_pass_spec r rest radix :
  first_pass (r :: rest) radix = spec_pass1 None (spec_radix radix (r :: rest)).
Proof.
  unfold first_pass, spec_radix.
  change ((r :: rest) !! 0%nat) with (Some r). cbv beta iota zeta.
  assert (∀ r0, foldl pass1_body (r0 :: rest) (seq 0 (length (r0 :: rest)))
                = spec_pass1 None (r0 :: rest)) as Hloop.
  { intros r0. simpl. rewrite pass1_body_first.
    pose proof (pass1_loop rest [] (spec_row None r0)) as H1. by simpl in H1. }
  destruct (isna (lx r)); [|apply Hloop].
  change (loc_set (r :: rest) 0 set_lx (of_int radix))
    with (set_lx (of_int radix) r :: rest).
  apply Hloop.
Qed.

(** On a table without infinite cells the second loop changes nothing. *)
Lemma spec_complete_first_pass df radix :
  Forall no_inf_row df →
  spec_complete df radix = spec_pass1 None (spec_radix radix df).
Proof.
  intros H. unfold spec_complete.
  apply spec_pass2_after_pass1; [done|by apply spec_radix_no_inf].
Qed.

Lemma spec_radix_fixed radix radix' df :
  spec_radix radix' (spec_pass1 None (spec_radix radix df))
  = spec_pass1 None (spec_radix radix df).
Proof.
  destruct df as [|r rest]; [done|]. simpl.
  rewrite lx_spec_row. simpl.
  destruct (isna (lx r)) eqn:E; simpl; [done|by rewrite E].
Qed.

Lemma spec_complete_idem df radix radix' :
  Forall no_inf_row df →
  spec_complete (spec_complete df radix) radix' = spec_complete df radix.
Proof.
  intros H. rewrite (spec_complete_first_pass df radix H).
  unfold spec_complete at 1. rewrite spec_radix_fixed.
  pose proof (spec_radix_no_inf radix df H) as H0.
  rewrite spec_pass1_idem by done.
  by apply spec_pass2_after_pass1.
Qed.

(** ** Tables in which every row supplies [qx] or [dx] *)

Lemma full_row_no_inf r : full_row r → no_inf_row r.
Proof.
  intros (Hl & Hq & Hd). unfold no_inf_row.
  by destruct (lx r), (qx r), (dx r).
Qed.

Lemma finite_iff x : is_finite x = true ↔ is_inf x = false ∧ isna x = false.
Proof. destruct x; simpl; (split; [done|by intros [? ?]]). Qed.

Lemma spec_row_full prev r :
  from_option full_row True prev → no_inf_row r →
  isna (qx r) = false ∨ isna (dx r) = false →
  (prev = None → isna (lx r) = false) →
  full_row (spec_row prev r).
Proof.
  intros Hprev Hr Hsup Hfirst.
  assert (from_option no_inf_row True prev) as Hprev'
    by (destruct prev; [by apply full_row_no_inf|done]).
  destruct (spec_row_settled prev r Hprev' Hr) as [((Hl & Hq & Hd) & Hqd & Hdq) Hlx].
  assert (isna (lx (spec_row prev r)) = false) as Hlp.
  { destruct (isna (lx (spec_row prev r))) eqn:E; [|done].
    destruct (Hlx eq_refl) as [Hna Hp].
    destruct prev as [p|]; [|by rewrite Hfirst in Hna].
    destruct Hprev as (Hpl & _ & Hpd). simpl in Hp.
    apply finite_iff in Hpl as [_ Hpl]. apply finite_iff in Hpd as [_ Hpd].
    unfold notna in Hp. by rewrite Hpl, Hpd in Hp. }
  assert (isna (qx (spec_row prev r)) = false
          ∨ isna (dx (spec_row prev r)) = false) as Hsup'.
  { destruct (spec_row_keeps prev r) as (_ & _ & Hkq & Hkd). unfold kept in *.
    destruct Hsup as [H|H]; [left; by rewrite Hkq|right; by rewrite Hkd]. }
  unfold full_row. rewrite !finite_iff.
  destruct Hsup' as [Hqp|Hdp]; repeat split; auto.
Qed.

Lemma spec_pass1_full rows : ∀ prev,
  from_option full_row True prev →
  Forall (λ r, no_inf_row r ∧ (isna (qx r) = false ∨ isna (dx r) = false)) rows →
  (prev = None → ∀ r, rows !! 0%nat = Some r → isna (lx r) = false) →
  Forall full_row (spec_pass1 prev rows).
Proof.
  induction rows as [|r rows IH]; intros prev Hprev Hrows Hfirst; simpl; [done|].
  inversion Hrows as [|?? [Hr Hsup] Hrest]; subst.
  assert (full_row (spec_row prev r)) as Hfull.
  { apply spec_row_full; try done. intros ->. by apply Hfirst. }
  constructor; [done|]. by apply IH.
Qed.

Lemma spec_radix_first_present radix rows r :
  spec_radix radix rows !! 0%nat = Some r → isna (lx r) = false.
Proof.
  destruct rows as [|r0 rows]; simpl; [done|]. intros [= <-].
  destruct (isna (lx r0)) eqn:E; [done|by rewrite E].
Qed.

Lemma spec_radix_supplied radix rows :
  Forall (λ r, no_inf_row r ∧ (isna (qx r) = false ∨ isna (dx r) = false)) rows →
  Forall (λ r, no_inf_row r ∧ (isna (qx r) = false ∨ isna (dx r) = false))
         (spec_radix radix rows).
Proof.
  intros Hrows. destruct rows as [|r rows]; simpl; [done|].
  inversion Hrows as [|?? [(Hl & Hq & Hd) Hsup] ?]; subst.
  constructor; [|done]. by case_match.
Qed.

Lemma spec_complete_full df radix :
  Forall (λ r, no_inf_row r ∧ (isna (qx r) = false ∨ isna (dx r) = false)) df →
  Forall full_row (spec_complete df radix).
Proof.
  intros H.
  rewrite spec_complete_first_pass
    by (eapply Forall_impl; [exact H|]; by intros r [? _]).
  apply spec_pass1_full; [done|by apply spec_radix_supplied|].
  intros _ r. apply spec_radix_first_present.
Qed.

(** ** Person-years and life expectancy *)

Lemma Qc_person_years (l d : Qc) :
  0 ≤ d → d ≤ l → 0 ≤ l - d / 2 ∧ l - d / 2 ≤ l ∧ l / 2 ≤ l - d / 2.
Proof. intros. rewrite !Qc_half. repeat split; qc_arith. Qed.

Lemma Qc_expectancy (l T : Qc) : 0 < l → l / 2 ≤ T → Q2Qc (1 # 2) ≤ T / l.
Proof.
  intros Hl HT. assert (0 < / l) as Hinv by (by apply Qcinv_pos).
  assert (Q2Qc (1 # 2) = (l / 2) * / l) as ->.
  { rewrite Qc_half.
    rewrite (Qcmult_comm l), <-Qcmult_assoc, Qcmult_inv_r, Qcmult_1_r; [done|].
    by apply Qclt_not_eq, not_eq_sym in Hl. }
  unfold Qcdiv at 2. by apply Qcmult_le_mono_nonneg_r; [apply Qclt_le_weak|].
Qed.

Lemma Qc_two_nonzero : (2 : Qc) ≠ 0.
Proof. compute_done. Qed.

Lemma deaths_within_cells r :
  deaths_within r = true →
  ∃ l d, lx r = Fin l ∧ dx r = Fin d ∧ 0 ≤ d ∧ d ≤ l
         ∧ cell_Lx r = Fin (l - d / 2).
Proof.
  unfold deaths_within, cell_Lx.
  destruct (lx r) as [| |l]; [done..|]. destruct (dx r) as [| |d]; [done..|].
  intros [H0%bool_decide_eq_true_1 H1%bool_decide_eq_true_1]%andb_prop.
  exists l, d. by repeat split.
Qed.

Lemma fsum_nonneg l :
  Forall (λ x, ∃ q, x = Fin q ∧ 0 ≤ q) l → ∃ s, fsum l = Fin s ∧ 0 ≤ s.
Proof.
  induction 1 as [|x l (q & -> & Hq) _ (s & IH & Hs)].
  - by exists 0.
  - rewrite fsum_cons, IH. exists (q + s). split; [done|].
    by apply Qcplus_nonneg_nonneg.
Qed.

Lemma col_Lx_nonneg df :
  Forall (λ r, deaths_within r = true) df →
  Forall (λ x, ∃ q, x = Fin q ∧ 0 ≤ q) (col_Lx df).
Proof.
  intros H. unfold col_Lx. apply Forall_fmap. eapply Forall_impl; [exact H|].
  intros r (l & d & _ & _ & H0 & H1 & HL)%deaths_within_cells.
  exists (l - d / 2). split; [exact HL|]. by apply Qc_person_years.
Qed.

Lemma fillna0_Fin_list l :
  Forall (λ x, ∃ q, x = Fin q ∧ 0 ≤ q) l → fillna0 <$> l = l.
Proof.
  intros H. rewrite <-(list_fmap_id l) at 2.
  apply Forall_fmap_ext_1. eapply Forall_impl; [exact H|].
  by intros x (q & -> & _).
Qed.

(** The output row of a table in which no row has more deaths than survivors. *)
Lemma output_row_within df i r :
  Forall (λ r, deaths_within r = true) df →
  df !! i = Some r →
  ∃ l d s,
    lx r = Fin l ∧ dx r = Fin d ∧ 0 ≤ d ∧ d ≤ l ∧ 0 ≤ s
    ∧ fsum (drop (S i) (col_Lx df)) = Fin s
    ∧ _add_life_table_functions df !! i
      = Some (mkLifeRow (clean_row r) (clean (cell_px r)) (Fin (l - d / 2))
                (Fin (l - d / 2 + s))
                (clean (cell_ex r (Fin (l - d / 2 + s))))).
Proof.
  intros Hall Hr.
  destruct (deaths_within_cells r) as (l & d & Hl & Hd & H0 & H1 & HL).
  { by eapply (proj1 (Forall_forall _ _) Hall), list_elem_of_lookup_2. }
  pose proof (col_Lx_nonneg df Hall) as Hnn.
  destruct (fsum_nonneg (drop (S i) (col_Lx df))) as (s & Hs & Hs0);
    [by apply Forall_drop|].
  exists l, d, s. repeat split; try done.
  rewrite (add_life_table_functions_lookup _ _ r Hr). cbv zeta.
  rewrite fillna0_Fin_list by (by apply Forall_drop).
  assert (col_Lx df !! i = Some (cell_Lx r)) as HLi
    by (unfold col_Lx; by rewrite list_lookup_fmap, Hr).
  rewrite (drop_S _ _ _ HLi), fsum_cons, Hs, HL. simpl.
  unfold clean_life_row. simpl. done.
Qed.

(** ** Tables of death probabilities *)

Lemma spec_complete_valid df radix :
  (0 ≤ radix)%Z → Forall valid_row df → Forall valid_row (spec_complete df radix).
Proof.
  intros Hz H. unfold spec_complete.
  apply spec_pass2_valid; [done|]. apply spec_pass1_valid; [done|].
  by apply spec_radix_valid.
Qed.

Lemma rate_row_inv r :
  rate_row r = true →
  absent_or_nonneg (lx r) = true ∧ isna (dx r) = true
  ∧ ∃ q, qx r = Fin q ∧ 0 ≤ q ∧ q ≤ 1.
Proof.
  unfold rate_row. intros [[Hl Hd]%andb_prop Hq]%andb_prop.
  split; [done|]. split; [done|].
  destruct (qx r) as [| |q]; [done..|].
  apply andb_prop in Hq as [H0%bool_decide_eq_true_1 H1%bool_decide_eq_true_1].
  by exists q.
Qed.

Lemma rate_row_valid r : rate_row r = true → valid_row r.
Proof.
  intros (Hl & Hd & q & Hq & H0 & _)%rate_row_inv.
  split; [done|]. rewrite Hq. split; [by apply nonneg_Fin|].
  by destruct (dx r).
Qed.

Lemma rate_row_supplied r :
  rate_row r = true →
  no_inf_row r ∧ (isna (qx r) = false ∨ isna (dx r) = false).
Proof.
  intros (Hl & Hd & q & Hq & _)%rate_row_inv. rewrite Hq.
  split; [|by left]. unfold no_inf_row. rewrite Hq.
  by destruct (lx r), (dx r).
Qed.

Lemma Qc_deaths (l q : Qc) : 0 ≤ l → 0 ≤ q → q ≤ 1 → 0 ≤ l * q ∧ l * q ≤ l.
Proof. intros. split; qc_arith. Qed.

(** ** Plausible rows and the range of [float64] *)

Lemma plausible_row_inv r :
  plausible_row r = true → valid_row r ∧ unit_row r ∧ no_inf_row r.
Proof.
  unfold plausible_row, valid_row, unit_row, no_inf_row.
  intros [[Hl Hq]%andb_prop Hd]%andb_prop.
  destruct (lx r) as [|s|l]; [|done|]; (destruct (qx r) as [|t|q]; [|done|]);
    (destruct (dx r) as [|u|d]; [|done|]); simpl in *;
    repeat split; try done.
  all: try (by apply andb_prop in Hq as [? _]).
  all: apply bool_decide_eq_true_1 in Hd; apply bool_decide_eq_false_2;
    by apply Qcle_not_lt.
Qed.

Lemma plausible_rows_no_inf df :
  Forall (λ r, plausible_row r = true) df → Forall no_inf_row df.
Proof.
  intros H. eapply Forall_impl; [exact H|]. by intros r (_ & _ & ?)%plausible_row_inv.
Qed.

Lemma plausible_row_intro r :
  valid_row r → absent_or_unit (qx r) = true → plausible_row r = true.
Proof.
  intros (Hl & _ & Hd) Hq. unfold plausible_row. by rewrite Hl, Hq, Hd.
Qed.

Lemma deaths_within_no_inf df :
  Forall (λ r, deaths_within r = true) df →
  Forall (λ r, is_inf (lx r) = false ∧ is_inf (dx r) = false) df.
Proof.
  intros H. eapply Forall_impl; [exact H|].
  intros r (l & d & -> & -> & _)%deaths_within_cells. done.
Qed.

Lemma Qc_quotient_le (T l : Qc) : 0 ≤ T → 1 ≤ l → T / l ≤ T.
Proof.
  intros HT Hl.
  assert (0 < l) as Hpos by (by eapply Qclt_le_trans; [|exact Hl]).
  assert (l ≠ 0) as Hne by (by apply Qclt_not_eq, not_eq_sym in Hpos).
  assert (0 ≤ T / l) as Hq.
  { unfold Qcdiv. rewrite <-(Qcmult_0_l (/ l)).
    by apply Qcmult_le_mono_nonneg_r; [apply Qclt_le_weak, Qcinv_pos|]. }
  rewrite <-(Qcmult_div_r T l Hne) at 2.
  revert Hq. generalize (T / l). intros x Hx. qc_arith.
Qed.

Lemma of_int_nonneg_iff (z : Z) : fle fzero (of_int z) ↔ (0 ≤ z)%Z.
Proof.
  unfold of_int, fzero, fle, Qcle, Q2Qc. simpl this. rewrite !Qred_correct.
  unfold Qle. simpl. lia.
Qed.

(** ** The completion stays within the values it is given *)

Lemma within_cases M x :
  absent_or_within M x = true → x = NaN ∨ ∃ q, x = Fin q ∧ 0 ≤ q ∧ q ≤ M.
Proof.
  destruct x as [|s|q]; simpl; [by left|done|].
  intros [H0%bool_decide_eq_true_1 H1%bool_decide_eq_true_1]%andb_prop.
  right. by exists q.
Qed.

Lemma within_Fin M q : 0 ≤ q → q ≤ M → absent_or_within M (Fin q) = true.
Proof. intros. simpl. by rewrite !bool_decide_eq_true_2. Qed.

Lemma unit_cases x :
  absent_or_unit x = true → x = NaN ∨ ∃ q, x = Fin q ∧ 0 ≤ q ∧ q ≤ 1.
Proof. apply (within_cases 1). Qed.

Lemma within_nonneg M x : absent_or_within M x = true → absent_or_nonneg x = true.
Proof.
  destruct x as [|s|q]; simpl; [done..|]. by intros [? _]%andb_prop.
Qed.

Lemma bounded_row_inv M r :
  bounded_row M r = true →
  absent_or_within M (lx r) = true ∧ absent_or_unit (qx r) = true
  ∧ absent_or_within M (dx r) = true.
Proof. unfold bounded_row. by intros [[? ?]%andb_prop ?]%andb_prop. Qed.

Lemma bounded_row_intro M r :
  absent_or_within M (lx r) = true → absent_or_unit (qx r) = true →
  absent_or_within M (dx r) = true → bounded_row M r = true.
Proof. unfold bounded_row. by intros -> -> ->. Qed.

Lemma bounded_row_plausible M r : bounded_row M r = true → plausible_row r = true.
Proof.
  intros (Hl & Hq & Hd)%bounded_row_inv. unfold plausible_row.
  by rewrite (within_nonneg M _ Hl), Hq, (within_nonneg M _ Hd).
Qed.

Lemma bounded_rows_plausible M df :
  Forall (λ r, bounded_row M r = true) df →
  Forall (λ r, plausible_row r = true) df.
Proof.
  intros H. eapply Forall_impl; [exact H|]. apply bounded_row_plausible.
Qed.

Lemma spec_step_a_bounded M prev r :
  from_option (λ p, bounded_row M p = true) True prev →
  bounded_row M r = true → bounded_row M (spec_step_a prev r) = true.
Proof.
  destruct prev as [p|]; [|done]. simpl.
  intros (Hpl & _ & Hpd)%bounded_row_inv Hr.
  unfold spec_step_a. case_match eqn:E; [|done].
  apply bounded_row_inv in Hr as (_ & Hq & Hd).
  apply bounded_row_intro; [|done..]. simpl.
  apply andb_prop in E as [_ [Hl'%negb_true_iff Hd'%negb_true_iff]%andb_prop].
  destruct (within_cases _ _ Hpl) as [Hx|(a & Ha & Ha0 & HaM)];
    [by rewrite Hx in Hl'|].
  destruct (within_cases _ _ Hpd) as [Hx|(d & Hdd & Hd0 & _)];
    [by rewrite Hx in Hd'|].
  rewrite Ha, Hdd. simpl.
  destruct (py_max0_Fin (a - d)) as (m & -> & Hm & Hle).
  apply within_Fin; [done|]. apply Hle; [by trans a|].
  etrans; [by apply Qc_sub_le|done].
Qed.

Lemma spec_step_b_bounded M r :
  bounded_row M r = true → bounded_row M (spec_step_b r) = true.
Proof.
  intros Hr. unfold spec_step_b. case_match eqn:E; [|done].
  apply bounded_row_inv in Hr as (Hl & Hq & _).
  apply bounded_row_intro; [done..|]. simpl.
  apply andb_prop in E as [_ [Hq'%negb_true_iff Hl'%negb_true_iff]%andb_prop].
  destruct (within_cases _ _ Hl) as [Hx|(a & -> & Ha0 & HaM)];
    [by rewrite Hx in Hl'|].
  destruct (unit_cases _ Hq) as [Hx|(q & -> & Hq0 & Hq1)];
    [by rewrite Hx in Hq'|].
  simpl. destruct (Qc_deaths a q Ha0 Hq0 Hq1).
  apply within_Fin; [done|by etrans].
Qed.

Lemma spec_step_c_bounded M r :
  bounded_row M r = true → bounded_row M (spec_step_c r) = true.
Proof.
  intros Hr. unfold spec_step_c. case_match eqn:E; [|done].
  apply bounded_row_inv in Hr as (Hl & _ & Hd).
  apply bounded_row_intro; [done| |done]. simpl.
  apply andb_prop in E as [_ [Hd'%negb_true_iff Hl'%negb_true_iff]%andb_prop].
  destruct (within_cases _ _ Hl) as [Hx|(a & Ha & Ha0 & _)];
    [by rewrite Hx in Hl'|].
  destruct (within_cases _ _ Hd) as [Hx|(d & Hdd & Hd0 & _)];
    [by rewrite Hx in Hd'|].
  rewrite Ha, Hdd. unfold fgtb, fzero. simpl.
  case_bool_decide as Hpos; [|by apply unit_Fin].
  rewrite bool_decide_eq_false_2 by (by apply Qclt_not_eq, not_eq_sym in Hpos).
  destruct (py_min1_unit (Fin (d / a))) as (m & -> & Hm0 & Hm1); [|done|].
  - simpl. apply bool_decide_eq_false_2, Qcle_not_lt. by apply Qc_div_nonneg.
  - by apply unit_Fin.
Qed.

Lemma spec_row_bounded M prev r :
  from_option (λ p, bounded_row M p = true) True prev →
  bounded_row M r = true → bounded_row M (spec_row prev r) = true.
Proof.
  intros Hp Hr. unfold spec_row.
  by apply spec_step_c_bounded, spec_step_b_bounded, spec_step_a_bounded.
Qed.

Lemma spec_fill_lx_bounded M prev r :
  from_option (λ p, bounded_row M p = true) True prev →
  bounded_row M r = true → bounded_row M (spec_fill_lx prev r) = true.
Proof.
  destruct prev as [p|]; [|done]. simpl.
  intros (Hpl & Hpq & _)%bounded_row_inv Hr.
  unfold spec_fill_lx. case_match eqn:E; [|done].
  apply bounded_row_inv in Hr as (_ & Hq & Hd).
  apply bounded_row_intro; [|done..]. simpl.
  apply andb_prop in E as [_ [Hl'%negb_true_iff Hq'%negb_true_iff]%andb_prop].
  destruct (within_cases _ _ Hpl) as [Hx|(a & Ha & Ha0 & HaM)];
    [by rewrite Hx in Hl'|].
  destruct (unit_cases _ Hpq) as [Hx|(q & Hqq & Hq0 & _)];
    [by rewrite Hx in Hq'|].
  rewrite Ha, Hqq. simpl.
  destruct (py_max0_Fin (a * (1 - q))) as (m & -> & Hm & Hle).
  apply within_Fin; [done|]. apply Hle; [by trans a|].
  etrans; [by apply Qc_survive_le|done].
Qed.

Lemma spec_pass1_bounded M rows : ∀ prev,
  from_option (λ p, bounded_row M p = true) True prev →
  Forall (λ r, bounded_row M r = true) rows →
  Forall (λ r, bounded_row M r = true) (spec_pass1 prev rows).
Proof.
  induction rows as [|r rows IH]; intros prev Hp Hrows; simpl; [done|].
  inversion Hrows; subst.
  constructor; [by apply spec_row_bounded|].
  apply IH; [|done]. simpl. by apply spec_row_bounded.
Qed.

Lemma spec_pass2_bounded M rows : ∀ prev,
  from_option (λ p, bounded_row M p = true) True prev →
  Forall (λ r, bounded_row M r = true) rows →
  Forall (λ r, bounded_row M r = true) (spec_pass2 prev rows).
Proof.
  induction rows as [|r rows IH]; intros prev Hp Hrows; simpl; [done|].
  inversion Hrows; subst.
  constructor; [by apply spec_fill_lx_bounded|].
  apply IH; [|done]. simpl. by apply spec_fill_lx_bounded.
Qed.

Lemma spec_radix_bounded M radix rows :
  absent_or_within M (of_int radix) = true →
  Forall (λ r, bounded_row M r = true) rows →
  Forall (λ r, bounded_row M r = true) (spec_radix radix rows).
Proof.
  intros Hz Hrows. destruct rows as [|r rows]; simpl; [done|].
  inversion Hrows as [|?? Hr ?]; subst. constructor; [|done].
  case_match; [|done].
  apply bounded_row_inv in Hr as (_ & Hq & Hd). by apply bounded_row_intro.
Qed.

Lemma spec_complete_bounded M df radix :
  absent_or_within M (of_int radix) = true →
  Forall (λ r, bounded_row M r = true) df →
  Forall (λ r, bounded_row M r = true) (spec_complete df radix).
Proof.
  intros Hz H. unfold spec_complete.
  apply spec_pass2_bounded; [done|]. apply spec_pass1_bounded; [done|].
  by apply spec_radix_bounded.
Qed.

(** * Further properties *)

(** X1.  The inner loop of [validate_columns] picks the first alternative, in
    list order, that is a column label: it returns [a] exactly when [a] is a
    label and no alternative listed before [a] is one. *)
Theorem first_listed_synonym_wins (alternatives cols : list string) (a : string) :
  find_alternative alternatives cols = Some a ↔
  ∃ before after,
    alternatives = before ++ a :: after
    ∧ a ∈ cols ∧ ∀ s, s ∈ before → s ∉ cols.
Proof. apply find_alternative_first. Qed.

Lemma first_listed_synonym_wins_witness :
  find_alternative age_synonyms ["x"; "age"; "qx"] = Some "age".
Proof.
  apply (first_listed_synonym_wins age_synonyms ["x"; "age"; "qx"] "age").
  exists ["yas"], ["yaş"; "x"]. split; [reflexivity|]. split; [compute_done|].
  intros s Hs. apply list_elem_of_singleton in Hs as ->. compute_done.
Defined.

(** X2.  After a successful [validate_columns] the frame has a column labelled
    [yaş] and one labelled [qx]; it has a column labelled [lx] (or [dx])
    exactly when one of the [lx] (or [dx]) synonyms was a label before; and
    validating the renamed frame again succeeds. *)
Theorem validated_frame_has_canonical_labels (d d' : Frame) :
  validate_columns d = (Ok (), d') →
  "yaş" ∈ columns d' ∧ "qx" ∈ columns d'
  ∧ ("lx" ∈ columns d' ↔ ¬ unmatched lx_synonyms d)
  ∧ ("dx" ∈ columns d' ↔ ¬ unmatched dx_synonyms d)
  ∧ (validate_columns d').1 = Ok ().
Proof.
  intros (mapped & Hm & -> & Ha & Hq)%validate_columns_Ok_inv.
  assert ("yaş" ∈ columns (rename_columns mapped d)) as Hyas
    by (apply (validated_label d mapped "yaş" age_synonyms); [done|compute_done|done]).
  assert ("qx" ∈ columns (rename_columns mapped d)) as Hqx
    by (apply (validated_label d mapped "qx" qx_synonyms); [done|compute_done|done]).
  split; [done|]. split; [done|].
  split; [apply (validated_label d mapped "lx" lx_synonyms); [done|compute_done]|].
  split; [apply (validated_label d mapped "dx" dx_synonyms); [done|compute_done]|].
  destruct (validate_columns_Ok (rename_columns mapped d))
    as (a & mapped' & _ & _ & _ & ->); [| |done].
  - intros Hun. apply (Hun "yaş"); [compute_done|done].
  - intros Hun. apply (Hun "qx"); [compute_done|done].
Qed.

Lemma validated_frame_has_canonical_labels_witness :
  "yaş" ∈ columns (validate_columns rising_lx_frame).2
  ∧ "qx" ∈ columns (validate_columns rising_lx_frame).2
  ∧ ("lx" ∈ columns (validate_columns rising_lx_frame).2
     ↔ ¬ unmatched lx_synonyms rising_lx_frame)
  ∧ ("dx" ∈ columns (validate_columns rising_lx_frame).2
     ↔ ¬ unmatched dx_synonyms rising_lx_frame)
  ∧ (validate_columns (validate_columns rising_lx_frame).2).1 = Ok ().
Proof.
  apply (validated_frame_has_canonical_labels rising_lx_frame).
  reflexivity.
Defined.

(** X3.  The values the pipeline reads for a canonical column are those of the
    first input column labelled with the alternative that was found: for [lx],
    [qx] and [dx] always, and for the age whenever the renaming leaves a single
    column labelled [yaş]. *)
Theorem canonical_column_values
    (d d' : Frame) (k : string) (alts : list string) (a : string) :
  validate_columns d = (Ok (), d') →
  (k, alts) ∈ column_mapping →
  find_alternative alts (columns d) = Some a →
  (k = "yaş" → (count_label d' "yaş" ≤ 1)%nat) →
  get_column d' k = get_column d a.
Proof.
  intros (mapped & Hm & -> & _)%validate_columns_Ok_inv Hk Ha Hcount.
  by apply (validated_get_column d mapped k alts a).
Qed.

Lemma canonical_column_values_witness :
  get_column (validate_columns rising_lx_frame).2 "yaş"
  = get_column rising_lx_frame "age".
Proof.
  apply (canonical_column_values rising_lx_frame _ "yaş" age_synonyms "age").
  - reflexivity.
  - compute_done.
  - reflexivity.
  - intros _. vm_compute. lia.
Defined.





(** X6.  [create_mortality_table] stores in [self.mortality_table] exactly the
    table it returns, and that table has at least one row; when it fails, the
    table stored before stays in place; without data it changes nothing. *)
Theorem create_mortality_table_stores_result
    (self : MortalityTableGenerator) (radix : Z) :
  match (create_mortality_table self radix).1 with
  | Ok t =>
      mortality_table (create_mortality_table self radix).2 = Some t ∧ t ≠ []
  | Err _ =>
      mortality_table (create_mortality_table self radix).2
      = mortality_table self
  end
  ∧ (data self = None → create_mortality_table self radix = (Err NoData, self)).
Proof.
  destruct self as [[d|] mt]; unfold create_mortality_table; simpl; [|done].
  split; [|done].
  destruct (validate_columns d) as [[u|e] d']; [|done].
  destruct (sorted_frame d') as [df|e]; [|done].
  destruct (bool_decide (df ≠ []) && ambiguous d'); [done|].
  destruct (life_table df radix) as [t|e] eqn:Ht; [|done].
  simpl. split; [done|].
  apply life_table_Ok in Ht as [Hne ->]. by apply output_nonempty.
Qed.

Lemma create_mortality_table_stores_result_witness :
  create_mortality_table (mkGenerator None None) 100000
  = (Err NoData, mkGenerator None None).
Proof.
  apply (create_mortality_table_stores_result (mkGenerator None None) 100000).
  reflexivity.
Defined.

(** X7.  Whatever the input, a [dx] that the completion fills satisfies
    [dx = lx * qx] in the completed row, and a [qx] that it fills is
    [min(1.0, dx / lx)] of the completed row when [lx > 0] and [0] otherwise, so
    a filled [qx] never exceeds 1. *)
Theorem filled_dx_and_qx_identities
    (df df' : list Row) (radix : Z) (i : nat) (r r' : Row) :
  _complete_calculations df radix = Ok df' →
  df !! i = Some r → df' !! i = Some r' →
  (isna (dx r) = true → isna (dx r') = false →
   dx r' = fmul (lx r') (qx r'))
  ∧ (isna (qx r) = true → isna (qx r') = false →
     qx r' = (if fgtb (lx r') fzero then py_min1 (fdiv (dx r') (lx r'))
              else fzero)
     ∧ fle (qx r') fone).
Proof.
  intros Hc Hr Hr'. apply complete_calculations_Ok in Hc as [_ ->].
  destruct (completed_row_view _ _ _ _ _ Hr Hr')
    as (prev2 & prev1 & r0 & -> & Hq0 & Hd0).
  destruct (spec_fill_lx_cells prev2 (spec_row prev1 r0)) as (Hq & Hd & Hl).
  rewrite Hq, Hd. split.
  - rewrite <-Hd0. intros Hna Hp.
    destruct (spec_row_dx_filled prev1 r0 Hna Hp) as [Hlx ->].
    by rewrite Hl.
  - rewrite <-Hq0. intros Hna Hp.
    destruct (spec_row_qx_filled prev1 r0 Hna Hp) as [Hlx Heq].
    rewrite Hl by done. split; [done|]. rewrite Heq.
    case_match; [apply py_min1_le_one|]. simpl. compute_done.
Qed.

Lemma filled_dx_and_qx_identities_witness :
  dx (mkRow (of_int 1) (of_int 99000) (ratio 2 100) (of_int 1980))
  = fmul (of_int 99000) (ratio 2 100).
Proof.
  apply (filled_dx_and_qx_identities scenario_A scenario_A_completed 100000 1
           (mkRow (of_int 1) NaN (ratio 2 100) NaN)
           (mkRow (of_int 1) (of_int 99000) (ratio 2 100) (of_int 1980))).
  - compute_done.
  - reflexivity.
  - reflexivity.
  - reflexivity.
  - reflexivity.
Defined.

(** X8.  Whatever the input, an [lx] that the completion fills is the radix in
    the first row, so it is negative there exactly when the radix is; in a
    later row it is [max(0, lx - dx)] or [max(0, lx * (1 - qx))] of the
    completed row before it, and is never negative. *)
Theorem filled_lx_recurrences (df df' : list Row) (radix : Z) :
  _complete_calculations df radix = Ok df' →
  (∀ r r', df !! 0%nat = Some r → df' !! 0%nat = Some r' →
           isna (lx r) = true →
           lx r' = of_int radix ∧ (fle fzero (lx r') ↔ (0 ≤ radix)%Z))
  ∧ (∀ j r p' r',
       df !! S j = Some r → df' !! j = Some p' → df' !! S j = Some r' →
       isna (lx r) = true → isna (lx r') = false →
       (lx r' = py_max0 (fsub (lx p') (dx p'))
        ∨ lx r' = py_max0 (fmul (lx p') (fsub fone (qx p'))))
       ∧ fle fzero (lx r')).
Proof.
  intros Hc. apply complete_calculations_Ok in Hc as [_ ->]. split.
  - intros r r' Hr Hr' Hna.
    rewrite (spec_complete_lookup_0 _ _ _ Hr) in Hr'. injection Hr' as <-.
    rewrite Hna, lx_spec_row. split; [done|]. apply of_int_nonneg_iff.
  - intros j r p' r' Hr Hp' Hr' Hna Hpresent.
    destruct (spec_complete_lookup_S _ _ _ _ _ _ Hr Hp' Hr')
      as (prev' & p1 & -> & ->).
    pose proof (filled_lx_recurrence prev' p1 r Hna Hpresent) as Hrec.
    split; [done|].
    destruct Hrec as [-> | ->]; apply py_max0_nonneg.
Qed.

Lemma filled_lx_recurrences_witness :
  lx (mkRow (of_int 0) (of_int 100000) (ratio 1 100) (of_int 1000))
  = of_int 100000.
Proof.
  destruct (filled_lx_recurrences scenario_A scenario_A_completed 100000)
    as [H0 _].
  - compute_done.
  - apply (H0 (mkRow (of_int 0) NaN (ratio 1 100) NaN)); reflexivity.
Defined.

(** X9.  On a table of plausible rows ([lx] and [dx] absent or finite and not
    negative, [qx] absent or between 0 and 1) the second loop of
    [_complete_calculations] never changes anything: the result is the table as
    the first loop left it. *)
Theorem second_loop_changes_nothing (df df' : list Row) (radix : Z) :
  _complete_calculations df radix = Ok df' →
  Forall (λ r, plausible_row r = true) df →
  df' = first_pass df radix.
Proof.
  intros Hc Hp. apply plausible_rows_no_inf in Hp.
  destruct df as [|r rest]; [done|].
  rewrite complete_calculations_spec in Hc. injection Hc as <-.
  rewrite first_pass_spec. by apply spec_complete_first_pass.
Qed.

Lemma second_loop_changes_nothing_witness :
  scenario_A_completed = first_pass scenario_A 100000.
Proof.
  apply (second_loop_changes_nothing scenario_A scenario_A_completed 100000).
  - compute_done.
  - repeat constructor.
Defined.

(** X10.  On a table of plausible rows the completion is idempotent:
    completing a completed table again, with any radix, returns it
    unchanged. *)
Theorem completion_is_idempotent (df df' : list Row) (radix radix' : Z) :
  _complete_calculations df radix = Ok df' →
  Forall (λ r, plausible_row r = true) df →
  _complete_calculations df' radix' = Ok df'.
Proof.
  intros Hc Hp. apply plausible_rows_no_inf in Hp.
  destruct df as [|r rest]; [done|].
  rewrite complete_calculations_spec in Hc. injection Hc as <-.
  pose proof (spec_complete_length (r :: rest) radix) as Hlen.
  destruct (spec_complete (r :: rest) radix) as [|r' rest'] eqn:E; [done|].
  rewrite complete_calculations_spec, <-E. f_equal.
  by apply spec_complete_idem.
Qed.

Lemma completion_is_idempotent_witness :
  _complete_calculations scenario_A_completed 5 = Ok scenario_A_completed.
Proof.
  apply (completion_is_idempotent scenario_A scenario_A_completed 100000 5).
  - compute_done.
  - repeat constructor.
Defined.

(** X11.  The completion never stores a value beyond those it is given: when
    every row is plausible with [lx] and [dx] at most [M] and the radix lies
    between 0 and [M], every row of the completed table is again plausible with
    [lx] and [dx] at most [M].  When, in addition, every row supplies [qx] or
    [dx], the completed table has no absent cell: every [lx], [qx] and [dx] is
    a finite number. *)
Theorem completion_fills_every_cell
    (df df' : list Row) (radix : Z) (M : Qc) :
  _complete_calculations df radix = Ok df' →
  absent_or_within M (of_int radix) = true →
  Forall (λ r, bounded_row M r = true) df →
  Forall (λ r, bounded_row M r = true) df'
  ∧ (Forall (λ r, isna (qx r) = false ∨ isna (dx r) = false) df →
     Forall full_row df').
Proof.
  intros Hc Hz Hb. apply complete_calculations_Ok in Hc as [_ ->].
  split; [by apply spec_complete_bounded|].
  intros Hsup. apply spec_complete_full.
  pose proof (plausible_rows_no_inf df (bounded_rows_plausible M df Hb)) as Hinf.
  apply Forall_lookup. intros i r Hr. split.
  - by apply (proj1 (Forall_lookup _ _) Hinf i).
  - by apply (proj1 (Forall_lookup _ _) Hsup i).
Qed.

Lemma completion_fills_every_cell_witness :
  Forall full_row scenario_A_completed.
Proof.
  apply (completion_fills_every_cell scenario_A scenario_A_completed 100000
           (Q2Qc (inject_Z 100000))).
  - compute_done.
  - reflexivity.
  - repeat constructor.
  - repeat constructor.
Defined.

(** X12.  For a table in which every row has finite [lx] and [dx] with
    [0 <= dx <= lx] and whose magnitudes add up to at most [float_range], the
    calculator returns, in every row, [0 <= Lx <= lx] and
    [Lx <= Tx <= float_max]; [Tx] does not grow from a row to the next; and
    a row with [lx >= 1] has a life expectancy [ex] of at least one half and at
    most [Tx]. *)
Theorem person_years_and_expectancy_bounds
    (df : list Row) (i : nat) (o : LifeRow) :
  Forall (λ r, deaths_within r = true) df →
  total_magnitude df ≤ float_range →
  _add_life_table_functions df !! i = Some o →
  fle fzero (Lx o) ∧ fle (Lx o) (lx (base o)) ∧ fle (Lx o) (Tx o)
  ∧ fle (Tx o) (Fin float_max)
  ∧ (∀ o', _add_life_table_functions df !! S i = Some o' →
           fle (Tx o') (Tx o))
  ∧ (fle fone (lx (base o)) →
     fle (ratio 1 2) (ex o) ∧ fle (ex o) (Tx o)).
Proof.
  intros Hall Hrange Ho.
  destruct (output_magnitudes df i o (deaths_within_no_inf df Hall) Ho)
    as [_ HT].
  destruct (output_lookup_inv _ _ _ Ho) as (r & Hr & _).
  destruct (output_row_within df i r Hall Hr)
    as (l & d & s & Hl & Hd & H0 & H1 & Hs0 & Hs & Hrow).
  rewrite Hrow in Ho. injection Ho as <-. simpl in *. rewrite Hl. simpl.
  destruct (Qc_person_years l d H0 H1) as (HL0 & HLl & HLh).
  assert (l - d / 2 ≤ l - d / 2 + s) as HLT.
  { rewrite <-(Qcplus_0_r (l - d / 2)) at 1. by apply Qcplus_le_mono_l. }
  split; [done|]. split; [done|]. split; [done|].
  split.
  { rewrite Qcabs.Qcabs_pos in HT by (by etrans). by eapply within_float_max. }
  split.
  - intros o' Ho'.
    destruct (output_lookup_inv _ _ _ Ho') as (r' & Hr' & _).
    destruct (output_row_within df (S i) r' Hall Hr')
      as (l' & d' & s' & Hl' & Hd' & _ & _ & _ & Hs' & Hrow').
    rewrite Hrow' in Ho'. injection Ho' as <-. simpl.
    assert (col_Lx df !! S i = Some (cell_Lx r')) as HLi
      by (unfold col_Lx; by rewrite list_lookup_fmap, Hr').
    rewrite (drop_S _ _ _ HLi), fsum_cons, Hs' in Hs.
    destruct (deaths_within_cells r') as (l2 & d2 & Hl2 & Hd2 & ? & ? & HL2).
    { by eapply (proj1 (Forall_forall _ _) Hall), list_elem_of_lookup_2. }
    assert (l2 = l') as -> by congruence. assert (d2 = d') as -> by congruence.
    rewrite HL2 in Hs. injection Hs as <-.
    rewrite <-(Qcplus_0_l (l' - d' / 2 + s')) at 1.
    by apply Qcplus_le_mono_r.
  - unfold fone, cell_ex. rewrite Hl. simpl. intros Hone.
    assert (0 < l) as Hpos by (by eapply Qclt_le_trans; [|exact Hone]).
    rewrite (bool_decide_eq_true_2 (0 < l)) by done.
    rewrite bool_decide_eq_false_2
      by (by apply Qclt_not_eq, not_eq_sym in Hpos).
    simpl. split.
    + apply Qc_expectancy; [done|]. by etrans.
    + apply Qc_quotient_le; [by etrans; [exact HL0|]|done].
Qed.

Lemma person_years_and_expectancy_bounds_witness :
  fle (ratio 1 2) (ex (_add_life_table_functions scenario_A_completed !!! 0%nat)).
Proof.
  apply (person_years_and_expectancy_bounds scenario_A_completed 0).
  - repeat constructor.
  - compute_done.
  - reflexivity.
  - compute_done.
Defined.

(** X13.  When every input row supplies a death probability [qx] between 0
    and 1 and no [dx], every supplied [lx] is a finite number that is not
    negative, and the radix is not negative, the completion returns in every
    row finite [lx] and [dx] with [0 <= dx <= lx]: no row has more deaths than
    survivors. *)
Theorem completed_deaths_within_survivors (df df' : list Row) (radix : Z) :
  _complete_calculations df radix = Ok df' →
  (0 ≤ radix)%Z →
  Forall (λ r, rate_row r = true) df →
  Forall (λ r, deaths_within r = true) df'.
Proof.
  intros Hc Hz Hdf. apply complete_calculations_Ok in Hc as [_ ->].
  assert (Forall full_row (spec_complete df radix)) as Hfull.
  { apply spec_complete_full. eapply Forall_impl; [exact Hdf|].
    apply rate_row_supplied. }
  assert (Forall valid_row (spec_complete df radix)) as Hvalid.
  { apply spec_complete_valid; [done|]. eapply Forall_impl; [exact Hdf|].
    apply rate_row_valid. }
  apply Forall_lookup. intros i r' Hr'.
  destruct (df !! i) as [r|] eqn:Hr.
  2:{ apply lookup_ge_None in Hr. apply lookup_lt_Some in Hr'.
      rewrite spec_complete_length in Hr'. lia. }
  pose proof (proj1 (Forall_lookup _ _) Hfull i r' Hr') as (Fl & Fq & Fd).
  pose proof (proj1 (Forall_lookup _ _) Hvalid i r' Hr') as (Vl & _ & _).
  pose proof (proj1 (Forall_lookup _ _) Hdf i r Hr) as Hrate. simpl in Hrate.
  apply rate_row_inv in Hrate as (_ & Hd & q & Hq & H0 & H1).
  destruct (completed_row_view _ _ _ _ _ Hr Hr')
    as (prev2 & prev1 & r0 & -> & Hq0 & Hd0).
  destruct (spec_fill_lx_cells prev2 (spec_row prev1 r0)) as (Eq & Ed & El).
  rewrite <-Hd0 in Hd.
  destruct (spec_row_dx_filled prev1 r0 Hd) as [Hlx Hdx].
  { rewrite <-Ed. by destruct (dx (spec_fill_lx prev2 (spec_row prev1 r0))). }
  assert (qx (spec_row prev1 r0) = Fin q) as Hq'.
  { destruct (spec_row_keeps prev1 r0) as (_ & _ & Hk & _).
    rewrite Hk; [congruence|]. by rewrite Hq0, Hq. }
  unfold deaths_within. rewrite Ed, El, Hdx, Hq' by done.
  rewrite El in Vl by done.
  destruct (lx (spec_row prev1 r0)) as [| |l]; [done..|]. simpl in *.
  apply bool_decide_eq_true_1 in Vl.
  destruct (Qc_deaths l q Vl H0 H1).
  by rewrite !bool_decide_eq_true_2.
Qed.

Lemma completed_deaths_within_survivors_witness :
  Forall (λ r, deaths_within r = true) scenario_A_completed.
Proof.
  apply (completed_deaths_within_survivors scenario_A scenario_A_completed 100000).
  - compute_done.
  - lia.
  - repeat constructor.
Defined.
